(** * TinyGo thread-backed tasks and the Boehm collector hooks

    A shallow embedding of [src/internal/task/task_threads.c] and
    [src/runtime/gc_boehm.c].

    - The sequential parts (CPU count, signal number, collector hooks) are
      plain functions.
    - The launcher is concurrent: every C statement of [tinygo_task_init],
      [start_wrapper] and [tinygo_task_start] is one atomic step of an
      interleaving machine whose threads carry a program counter, their
      thread-local [current_task], their locals, and the [struct state_pass]
      living in their stack frame. *)

From Stdlib Require Import ZArith Lia String.
From stdpp Require Import base option list gmap.

Local Open Scope Z_scope.

(* ===================================================================== *)
(** * Part I: definitions                                                 *)
(* ===================================================================== *)

(** ** C integers *)

Definition INT_MIN : Z := - 2 ^ 31.
Definition INT_MAX : Z := 2 ^ 31 - 1.

(** Conversion of a [long] to [int], as in [int num = sysconf(...)]:
    the value is reduced modulo 2^32 into the signed range. *)
Definition to_int (z : Z) : Z := (z + 2 ^ 31) mod 2 ^ 32 - 2 ^ 31.

(** The null pointer. *)
Definition NULL : Z := 0.

(** ** gc_boehm.c *)

(** The text a warning procedure writes to the diagnostic stream. *)
Definition GC_warn_proc : Type := string → Z → list string.

(** [static void callback(void)]: the only root-scan procedure of the
    file; it forwards to the Go side. *)
Inductive GC_push_other_roots_proc : Type :=
  | callback.

(** The two registration slots of the collector that gc_boehm.c touches. *)
Record collector : Type := Collector {
  push_other_roots : option GC_push_other_roots_proc;
  current_warn_proc : GC_warn_proc;
}.

(** The collector's own default: a warning is printed. *)
Definition GC_default_warn_proc : GC_warn_proc := λ msg _, [msg].

Definition GC_fresh : collector :=
  {| push_other_roots := None; current_warn_proc := GC_default_warn_proc |}.

Definition GC_set_push_other_roots
    (p : GC_push_other_roots_proc) (g : collector) : collector :=
  {| push_other_roots := Some p; current_warn_proc := current_warn_proc g |}.

Definition GC_set_warn_proc (p : GC_warn_proc) (g : collector) : collector :=
  {| push_other_roots := push_other_roots g; current_warn_proc := p |}.

(** [static void warn_proc(const char *msg, uintptr_t arg) { }] *)
Definition warn_proc : GC_warn_proc := λ _ _, [].

(** [tinygo_runtime_bdwgc_init]; [wasm] is [defined(__wasm__)]. *)
Definition tinygo_runtime_bdwgc_init (wasm : bool) (g : collector) : collector :=
  let g := GC_set_push_other_roots callback g in
  if wasm then GC_set_warn_proc warn_proc g else g.

(** What reaches the diagnostic stream when the collector raises [msg]. *)
Definition GC_warn (g : collector) (msg : string) (arg : Z) : list string :=
  current_warn_proc g msg arg.

(** The diagnostic the comment in [tinygo_runtime_bdwgc_init] quotes. *)
Definition large_block_text : string :=
  "GC Warning: Repeated allocation of very large block".

Definition is_large_block_warning (msg : string) : bool :=
  String.prefix large_block_text msg.

Definition heap_exhausted_text : string :=
  "GC Warning: Out of Memory! Returning NULL!".

(** ** Platform constants of task_threads.c *)

(** The two branches of [#ifdef __linux__ ... #elif __APPLE__]. *)
Inductive host : Type := Linux | Apple.

(** Signal numbers come from [<signal.h>]; they are parameters here. *)
Record signals : Type := Signals {
  SIGRTMIN : Z;
  SIGIO : Z;
}.

(** glibc on Linux gives [SIGRTMIN = 34]; Darwin gives [SIGIO = 23]. *)
Definition usual_signals : signals := {| SIGRTMIN := 34; SIGIO := 23 |}.

(** [#define taskPauseSignal (SIGRTMIN + 6)] / [#define taskPauseSignal SIGIO] *)
Definition taskPauseSignal (h : host) (s : signals) : Z :=
  match h with
  | Linux => SIGRTMIN s + 6
  | Apple => SIGIO s
  end.

(** [sizeof(pthread_t)] and [sizeof(void* )]. *)
Record abi : Type := Abi {
  sizeof_pthread_t : Z;
  sizeof_voidp : Z;
}.

Definition lp64 : abi := {| sizeof_pthread_t := 8; sizeof_voidp := 8 |}.
Definition wide_pthread : abi := {| sizeof_pthread_t := 16; sizeof_voidp := 8 |}.

(** Lines 65-70 of [tinygo_task_init]: the value stored in [*numCPU] when
    [sysconf(_SC_NPROCESSORS_ONLN)] returns [r]. *)
Definition numCPU_of_sysconf (r : Z) : Z :=
  let num := to_int r in
  if num <=? 0 then 1 else num.

Definition ESRCH : Z := 3.
Definition EAGAIN : Z := 11.

(** ** The launcher as an interleaving machine *)

(** A thread identity ([pthread_t]) is the index of the thread in the
    machine's thread table. *)
Abbreviation tid := nat (only parsing).

(** The parameters of [tinygo_task_start] ([context] is unused). *)
Record start_args : Type := StartArgs {
  a_fn : Z;
  a_args : Z;
  a_task : Z;
  a_thread : Z;
  a_stackTop : Z;
  a_stackSize : Z;
}.

(** The parameters of [tinygo_task_init] ([context] is unused). *)
Record init_args : Type := InitArgs {
  i_mainTask : Z;
  i_thread : Z;
  i_numCPU : Z;
}.

(** What task code can ask of this file (spec section 6): the current
    task, a new task, a pause signal for one thread. *)
Inductive uaction : Type :=
  | UCurrent
  | UStart (k : start_args)
  | USignal (thread : Z).

(** [struct state_pass]; [startlock] is the value of the semaphore. *)
Record state_pass : Type := StatePass {
  start : Z;
  args : Z;
  task : Z;
  stackTop : Z;
  startlock : nat;
}.

(** Program points of [tinygo_task_init] (I), of [start_wrapper] (W), and
    of the code that runs in between. *)
Inductive pc : Type :=
  | IBind | ISelf | ISigaction | INumCPU
  | WReadStart | WReadArgs | WBind | WStackTop | WPost | WCall
  | Running
  | WExited | WRet
  | Done.

(** Program points of [tinygo_task_start]. *)
Inductive spc : Type :=
  | SCheck | SState | SSemInit | SAttrInit | SDetach | SStackSize
  | SCreate | SAttrDestroy | STest | SWait | SSemDestroy | SRet.

(** How a thread came to exist. *)
Inductive origin : Type :=
  | Main (ia : init_args)
  | Foreign
  | Spawned (parent : tid) (k : start_args).

(** An activation of [tinygo_task_start]: where it is, its parameters, its
    local [result], and the thread [pthread_create] made. *)
Record scall : Type := SCall {
  s_pc : spc;
  s_k : start_args;
  s_result : Z;
  s_child : option tid;
}.

(** One OS thread.  [current_task] is the [__thread] variable;
    [w_state] is the pointer [state] of [start_wrapper], naming the thread
    in whose frame the record lives; [loc_start] and [loc_args] are the
    locals [start] and [args] of [start_wrapper]; [state] is the memory of
    the local [state] of [tinygo_task_start], which stays where it is,
    stale, between two calls. *)
Record thread : Type := Thread {
  origin_of : origin;
  t_pc : pc;
  current_task : Z;
  w_state : tid;
  loc_start : Z;
  loc_args : Z;
  todo : list uaction;
  call : option scall;
  state : state_pass;
}.

(** What a step did, with the values it saw. *)
Inductive op : Type :=
  | OInitBind (v : Z) | OSelf (a v : Z) | OSigaction (sig : Z) | ONumCPU (a v : Z)
  | OReadStart (v : Z) | OReadArgs (v : Z) | OBind (v : Z)
  | OStackTop (a v : Z) | OPost
  | OEntry (fn a : Z) | OEntryRet | OExited (v : Z) | OThreadRet
  | OCurrent (v : Z)
  | OKill (thread sig res : Z)
  | OStartCall (k : start_args) | OTrap | OState | OSemInit | OAttrInit
  | ODetach | OStackSize (n : Z) | OCreate (res : Z) (child : option tid)
  | OAttrDestroy | OSemWait | OSemDestroy
  | OStartRet (k : start_args) (res : Z) (child : option tid).

Definition event : Type := tid * op.

(** OS objects that must be given back: the semaphore of a record
    ([sem_init] / [dispatch_semaphore_create]) and a thread-attribute
    object, each named by the thread that made it. *)
Inductive resource : Type :=
  | RSem (owner : tid)
  | RAttr (owner : tid).

(** The whole process.  [mem] holds the words of the embedding runtime
    that this file writes through [thread], [stackTop] and [numCPU], an
    address naming one whole object;
    [create_results] is what the next calls of [pthread_create] will
    return (0 once the list is used up); [trace] is newest first. *)
Record machine : Type := Machine {
  threads : list thread;
  mem : gmap Z Z;
  handlers : list (Z * bool);
  pending : list (tid * Z);
  live : list resource;
  create_results : list Z;
  trace : list event;
  trapped : bool;
}.

(** What the platform fixes: the branch of the [#if]s, the signal
    numbers, the sizes, where each thread's stack lies (the address of an
    object is never null), what each entry function does, and what
    [sysconf(_SC_NPROCESSORS_ONLN)] returns. *)
Record config : Type := Config {
  c_host : host;
  c_sigs : signals;
  c_abi : abi;
  stack_of : tid → positive;
  entry : Z → Z → list uaction;
  sysconf_nprocs : Z;
}.

Global Instance pc_eq_dec : EqDecision pc.
Proof. solve_decision. Defined.
Global Instance spc_eq_dec : EqDecision spc.
Proof. solve_decision. Defined.
Global Instance resource_eq_dec : EqDecision resource.
Proof. solve_decision. Defined.

(** *** Field updates *)

Definition set_pc (q : pc) (th : thread) : thread :=
  Thread (origin_of th) q (current_task th) (w_state th) (loc_start th)
    (loc_args th) (todo th) (call th) (state th).
Definition set_current_task (v : Z) (th : thread) : thread :=
  Thread (origin_of th) (t_pc th) v (w_state th) (loc_start th)
    (loc_args th) (todo th) (call th) (state th).
Definition set_loc_start (v : Z) (th : thread) : thread :=
  Thread (origin_of th) (t_pc th) (current_task th) (w_state th) v
    (loc_args th) (todo th) (call th) (state th).
Definition set_loc_args (v : Z) (th : thread) : thread :=
  Thread (origin_of th) (t_pc th) (current_task th) (w_state th)
    (loc_start th) v (todo th) (call th) (state th).
Definition set_todo (l : list uaction) (th : thread) : thread :=
  Thread (origin_of th) (t_pc th) (current_task th) (w_state th)
    (loc_start th) (loc_args th) l (call th) (state th).
Definition set_call (o : option scall) (th : thread) : thread :=
  Thread (origin_of th) (t_pc th) (current_task th) (w_state th)
    (loc_start th) (loc_args th) (todo th) o (state th).
Definition set_state (r : state_pass) (th : thread) : thread :=
  Thread (origin_of th) (t_pc th) (current_task th) (w_state th)
    (loc_start th) (loc_args th) (todo th) (call th) r.
Definition set_startlock (n : nat) (th : thread) : thread :=
  set_state (StatePass (start (state th)) (args (state th))
               (task (state th)) (stackTop (state th)) n) th.

Definition at_spc (q : spc) (sc : scall) : scall :=
  SCall q (s_k sc) (s_result sc) (s_child sc).

Definition upd (t : tid) (f : thread → thread) (m : machine) : machine :=
  Machine (alter f t (threads m)) (mem m) (handlers m) (pending m) (live m)
    (create_results m) (trace m) (trapped m).
Definition spawn (th : thread) (m : machine) : machine :=
  Machine (threads m ++ [th]) (mem m) (handlers m) (pending m) (live m)
    (create_results m) (trace m) (trapped m).
Definition store (a v : Z) (m : machine) : machine :=
  Machine (threads m) (<[a:=v]> (mem m)) (handlers m) (pending m) (live m)
    (create_results m) (trace m) (trapped m).
Definition sigaction (sig : Z) (restart : bool) (m : machine) : machine :=
  Machine (threads m) (mem m) ((sig, restart) :: handlers m) (pending m)
    (live m) (create_results m) (trace m) (trapped m).
Definition deliver (t : tid) (sig : Z) (m : machine) : machine :=
  Machine (threads m) (mem m) (handlers m) ((t, sig) :: pending m) (live m)
    (create_results m) (trace m) (trapped m).
Definition acquire (r : resource) (m : machine) : machine :=
  Machine (threads m) (mem m) (handlers m) (pending m) (r :: live m)
    (create_results m) (trace m) (trapped m).
Definition release (r : resource) (m : machine) : machine :=
  Machine (threads m) (mem m) (handlers m) (pending m)
    (filter (λ x, x ≠ r) (live m)) (create_results m) (trace m) (trapped m).
Definition next_create (m : machine) : machine :=
  Machine (threads m) (mem m) (handlers m) (pending m) (live m)
    (tail (create_results m)) (trace m) (trapped m).
Definition emit (t : tid) (o : op) (m : machine) : machine :=
  Machine (threads m) (mem m) (handlers m) (pending m) (live m)
    (create_results m) ((t, o) :: trace m) (trapped m).
Definition trap (m : machine) : machine :=
  Machine (threads m) (mem m) (handlers m) (pending m) (live m)
    (create_results m) (trace m) true.

(** *** The functions of task_threads.c *)

(** [tinygo_task_current]: [return current_task;] on the calling thread. *)
Definition tinygo_task_current (th : thread) : Z := current_task th.

(** A thread as the OS hands it over: thread-local storage is zeroed. *)
Definition fresh_thread (o : origin) (q : pc) (st : tid) (code : list uaction)
  : thread :=
  Thread o q NULL st 0 0 code None (StatePass 0 0 0 0 0).

(** A thread of the table that has not ended. *)
Definition thread_alive (m : machine) (thr : Z) : bool :=
  bool_decide (0 ≤ thr) &&
  match threads m !! Z.to_nat thr with
  | Some th => bool_decide (t_pc th ≠ Done)
  | None => false
  end.

(** [pthread_kill] of a C library that looks the identity up before it
    uses it: the signal becomes pending for the one thread named when
    that thread is alive, and the answer is [ESRCH] otherwise.  The
    machine below runs on such a library; [libc_kill] further down
    leaves the library open. *)
Definition pthread_kill (thr sig : Z) (m : machine) : machine * Z :=
  if thread_alive m thr then (deliver (Z.to_nat thr) sig m, 0)
  else (m, ESRCH).

(** [tinygo_task_send_gc_signal]: the result of [pthread_kill] is dropped. *)
Definition tinygo_task_send_gc_signal (c : config) (thr : Z) (m : machine)
  : machine :=
  fst (pthread_kill thr (taskPauseSignal (c_host c) (c_sigs c)) m).

(** *** [pthread_kill] as a parameter

    [pthread_kill] belongs to the C library, not to these files.  What a
    call of it can do, seen from the caller: it comes back with a code,
    having made signals pending for some threads ([KReturns]), or it
    does not come back because the process faults ([KFaults]). *)
Inductive kill_outcome : Type :=
  | KReturns (res : Z) (sent : list (tid * Z))
  | KFaults.

(** A C library's [pthread_kill], given the threads of the process, an
    identity and a signal number. *)
Definition libc_kill : Type := machine → Z → Z → kill_outcome.

(** What POSIX fixes for a signal number [sig] of the platform: for a
    thread that is alive the signal becomes pending for that thread and
    the answer is 0.  An identity whose lifetime is over is left
    undefined, and the threads of line 123 are detached, so theirs is
    over as soon as they end. *)
Definition posix_kill (libc : libc_kill) (sig : Z) : Prop :=
  ∀ m thr, thread_alive m thr = true →
    libc m thr sig = KReturns 0 [(Z.to_nat thr, sig)].



(** A library that looks the identity up first and answers [ESRCH] when
    there is no such live thread: the [pthread_kill] the machine runs on. *)
Definition checked_kill : libc_kill := λ m thr sig,
  if thread_alive m thr then KReturns 0 [(Z.to_nat thr, sig)]
  else KReturns ESRCH [].


(** One statement of [tinygo_task_start], run by thread [t]. *)
Definition step_start (c : config) (t : tid) (th : thread) (sc : scall)
    (m : machine) : option machine :=
  let k := s_k sc in
  let goto (q : spc) := upd t (set_call (Some (at_spc q sc))) in
  match s_pc sc with
  | SCheck =>
      if decide (sizeof_pthread_t (c_abi c) = sizeof_voidp (c_abi c))
      then Some (goto SState m)
      else Some (emit t OTrap (trap m))
  | SState =>
      Some (emit t OState
        (upd t (set_state (StatePass (a_fn k) (a_args k) (a_task k)
                             (a_stackTop k) 0))
           (goto SSemInit m)))
  | SSemInit =>
      Some (emit t OSemInit
        (acquire (RSem t) (upd t (set_startlock 0) (goto SAttrInit m))))
  | SAttrInit => Some (emit t OAttrInit (acquire (RAttr t) (goto SDetach m)))
  | SDetach => Some (emit t ODetach (goto SStackSize m))
  | SStackSize => Some (emit t (OStackSize (a_stackSize k)) (goto SCreate m))
  | SCreate =>
      let r := hd 0 (create_results m) in
      let m := next_create m in
      if decide (r = 0) then
        let c' := length (threads m) in
        Some (emit t (OCreate 0 (Some c'))
          (store (a_thread k) (Z.of_nat c')
            (spawn (fresh_thread (Spawned t k) WReadStart t [])
              (upd t (set_call (Some (SCall SAttrDestroy k 0 (Some c')))) m))))
      else
        Some (emit t (OCreate r None)
          (upd t (set_call (Some (SCall SAttrDestroy k r None))) m))
  | SAttrDestroy =>
      Some (emit t OAttrDestroy (release (RAttr t) (goto STest m)))
  | STest =>
      if decide (s_result sc ≠ 0)
      then Some (emit t (OStartRet k (s_result sc) None)
                   (upd t (set_call None) m))
      else Some (goto SWait m)
  | SWait =>
      match startlock (state th) with
      | O => None
      | S n =>
          Some (emit t OSemWait (upd t (set_startlock n) (goto SSemDestroy m)))
      end
  | SSemDestroy => Some (emit t OSemDestroy (release (RSem t) (goto SRet m)))
  | SRet =>
      Some (emit t (OStartRet k (s_result sc) (s_child sc))
              (upd t (set_call None) m))
  end.

(** One action of task code, run by thread [t]. *)
Definition step_user (c : config) (t : tid) (th : thread) (a : uaction)
    (m : machine) : machine :=
  match a with
  | UCurrent => emit t (OCurrent (tinygo_task_current th)) m
  | UStart k =>
      emit t (OStartCall k) (upd t (set_call (Some (SCall SCheck k 0 None))) m)
  | USignal thr =>
      let sig := taskPauseSignal (c_host c) (c_sigs c) in
      emit t (OKill thr sig (snd (pthread_kill thr sig m)))
        (tinygo_task_send_gc_signal c thr m)
  end.

(** One statement of thread [t], whose record in the table is [th]. *)
Definition step_thread (c : config) (t : tid) (th : thread) (m : machine)
  : option machine :=
  let goto (q : pc) := upd t (set_pc q) in
  match t_pc th with
  | IBind =>
      match origin_of th with
      | Main ia =>
          Some (emit t (OInitBind (i_mainTask ia))
            (upd t (set_current_task (i_mainTask ia)) (goto ISelf m)))
      | _ => None
      end
  | ISelf =>
      match origin_of th with
      | Main ia =>
          Some (emit t (OSelf (i_thread ia) (Z.of_nat t))
            (store (i_thread ia) (Z.of_nat t) (goto ISigaction m)))
      | _ => None
      end
  | ISigaction =>
      let sig := taskPauseSignal (c_host c) (c_sigs c) in
      Some (emit t (OSigaction sig) (sigaction sig true (goto INumCPU m)))
  | INumCPU =>
      match origin_of th with
      | Main ia =>
          let n := numCPU_of_sysconf (sysconf_nprocs c) in
          Some (emit t (ONumCPU (i_numCPU ia) n)
            (store (i_numCPU ia) n (goto Running m)))
      | _ => None
      end
  | WReadStart =>
      p ← threads m !! w_state th;
      let v := start (state p) in
      Some (emit t (OReadStart v) (upd t (set_loc_start v) (goto WReadArgs m)))
  | WReadArgs =>
      p ← threads m !! w_state th;
      let v := args (state p) in
      Some (emit t (OReadArgs v) (upd t (set_loc_args v) (goto WBind m)))
  | WBind =>
      p ← threads m !! w_state th;
      let v := task (state p) in
      Some (emit t (OBind v) (upd t (set_current_task v) (goto WStackTop m)))
  | WStackTop =>
      p ← threads m !! w_state th;
      let a := stackTop (state p) in
      let v := Z.pos (stack_of c t) in
      Some (emit t (OStackTop a v) (store a v (goto WPost m)))
  | WPost =>
      Some (emit t OPost
        (upd (w_state th) (λ p, set_startlock (S (startlock (state p))) p)
           (goto WCall m)))
  | WCall =>
      Some (emit t (OEntry (loc_start th) (loc_args th))
        (upd t (set_todo (entry c (loc_start th) (loc_args th)))
           (goto Running m)))
  | Running =>
      match call th with
      | Some sc => step_start c t th sc m
      | None =>
          match todo th with
          | a :: rest => Some (step_user c t th a (upd t (set_todo rest) m))
          | [] =>
              match origin_of th with
              | Spawned _ _ => Some (emit t OEntryRet (goto WExited m))
              | _ => Some (goto Done m)
              end
          end
      end
  | WExited => Some (emit t (OExited (current_task th)) (goto WRet m))
  | WRet => Some (emit t OThreadRet (goto Done m))
  | Done => None
  end.

(** Thread [t] takes one step, if it can: nothing runs once the process
    has trapped, and a thread waiting on an empty semaphore stays put. *)
Definition step (c : config) (t : tid) (m : machine) : option machine :=
  if trapped m then None
  else th ← threads m !! t; step_thread c t th m.

(** A schedule names the thread to run at each turn; a turn of a thread
    that cannot move is lost. *)
Definition run (c : config) (sched : list tid) (m : machine) : machine :=
  foldl (λ m t, default m (step c t m)) m sched.

(** Process start: the main thread is about to call [tinygo_task_init]
    and will then run [main_code]; threads made by other libraries run
    their own code and never pass through this file's binding code. *)
Definition boot (ia : init_args) (main_code : list uaction)
    (foreign : list (list uaction)) (oracle : list Z) : machine :=
  Machine
    (fresh_thread (Main ia) IBind 0%nat main_code
       :: (fresh_thread Foreign Running 0%nat <$> foreign))
    ∅ [] [] [] oracle [] false.

Definition reachable (c : config) (m : machine) : Prop :=
  ∃ ia main_code foreign oracle sched,
    m = run c sched (boot ia main_code foreign oracle).

(** ** Reuse of a record's memory *)

(** The memory of the record in [p]'s frame is written over with [r]. *)
Definition overwrite (p : tid) (r : state_pass) (m : machine) : machine :=
  upd p (set_state r) m.

(** Either a thread takes a turn, or whoever owns the memory of the
    record by now scribbles over it. *)
Inductive action : Type :=
  | Turn (t : tid)
  | Scribble (r : state_pass).

Definition act (c : config) (p : tid) (a : action) (m : machine) : machine :=
  match a with
  | Turn t => default m (step c t m)
  | Scribble r => overwrite p r m
  end.

Definition exec (c : config) (p : tid) (acts : list action) (m : machine)
  : machine :=
  foldl (λ m a, act c p a m) m acts.

Definition turn_of (a : action) : option tid :=
  match a with
  | Turn t => Some t
  | Scribble _ => None
  end.

Definition turns (acts : list action) : list tid := omap turn_of acts.

(** The machine with the record of [p] blanked: all there is to see for
    someone who does not look at that record. *)
Definition forget (p : tid) (m : machine) : machine :=
  overwrite p (StatePass 0 0 0 0 0) m.

(** ** Predicates on program points *)

(** [start_wrapper] has not yet passed [sem_post]. *)
Definition pre_post (q : pc) : bool :=
  match q with
  | WReadStart | WReadArgs | WBind | WStackTop | WPost => true
  | _ => false
  end.

Definition in_wrapper (q : pc) : bool :=
  match q with
  | WReadStart | WReadArgs | WBind | WStackTop | WPost | WCall
  | WExited | WRet => true
  | _ => false
  end.

Definition in_init (q : pc) : bool :=
  match q with
  | IBind | ISelf | ISigaction | INumCPU => true
  | _ => false
  end.

(** How far a spawned thread has come. *)
Definition rank (q : pc) : nat :=
  match q with
  | IBind | ISelf | ISigaction | INumCPU | WReadStart => 0
  | WReadArgs => 1
  | WBind => 2
  | WStackTop => 3
  | WPost => 4
  | WCall => 5
  | Running => 6
  | WExited => 7
  | WRet => 8
  | Done => 9
  end.

(** [pthread_create] has succeeded and [sem_wait] has not yet returned. *)
Definition awaiting (sc : scall) : bool :=
  match s_pc sc with
  | SAttrDestroy | STest | SWait => true
  | _ => false
  end.

(** [sem_wait] has returned. *)
Definition finishing (sc : scall) : bool :=
  match s_pc sc with
  | SSemDestroy | SRet => true
  | _ => false
  end.

(** The semaphore is initialised and [pthread_create] is still to come. *)
Definition prepared (sc : scall) : bool :=
  match s_pc sc with
  | SAttrInit | SDetach | SStackSize | SCreate => true
  | _ => false
  end.

(** The record holds the parameters [k]. *)
Definition record_of (k : start_args) (r : state_pass) : Prop :=
  start r = a_fn k ∧ args r = a_args k ∧ task r = a_task k
  ∧ stackTop r = a_stackTop k.

(** No task was ever bound on this thread. *)
Definition unbound (th : thread) : bool :=
  match origin_of th with
  | Foreign => true
  | Main _ => bool_decide (t_pc th = IBind)
  | Spawned _ _ => bool_decide (rank (t_pc th) ≤ rank WBind)%nat
  end.

(** [p] is a thread, and every thread that was handed the record of [p]
    has signalled. *)
Definition handed_off (p : tid) (m : machine) : Prop :=
  (p < length (threads m))%nat
  ∧ ∀ t th, threads m !! t = Some th → w_state th = p →
      pre_post (t_pc th) = false.

(** A call of [tinygo_task_start] on this thread has filled the record
    and has not yet returned. *)
Definition record_in_use (th : thread) : bool :=
  match call th with
  | Some sc =>
      match s_pc sc with
      | SCheck | SState => false
      | _ => true
      end
  | None => false
  end.

(** The memory of the record of [p] is free for others to use. *)
Definition record_free (p : tid) (m : machine) : Prop :=
  ∃ pth, threads m !! p = Some pth ∧ record_in_use pth = false.

(** Every scribble of the course comes at a time when the record of [p]
    is free, or when it is handed off and [p] takes no turn from then
    on. *)
Fixpoint polite (c : config) (p : tid) (acts : list action) (m : machine)
  : Prop :=
  match acts with
  | [] => True
  | Turn t :: acts => polite c p acts (act c p (Turn t) m)
  | Scribble r :: acts =>
      (record_free p m ∨ (handed_off p m ∧ p ∉ turns acts))
      ∧ polite c p acts (overwrite p r m)
  end.

(** The record of [p] as a course of turns and scribbles has left it,
    against the same turns with no scribble at all. *)
Definition scribbled (p : tid) (m1 m0 : machine) : Prop :=
  m1 = m0 ∨ (record_free p m0 ∧ ∃ r, m1 = overwrite p r m0).

(** ** Invariants of the reachable machines *)

(** What holds of one thread, given the trace so far. *)
Definition local_ok (cfg : config) (tr : list event) (c : tid) (th : thread)
  : Prop :=
  (is_Some (call th) → t_pc th = Running) ∧
  match origin_of th with
  | Main ia =>
      in_wrapper (t_pc th) = false
      ∧ current_task th
        = (if bool_decide (t_pc th = IBind) then NULL else i_mainTask ia)
  | Foreign =>
      in_wrapper (t_pc th) = false ∧ in_init (t_pc th) = false
      ∧ current_task th = NULL
  | Spawned p k =>
      w_state th = p ∧ (p < c)%nat ∧ in_init (t_pc th) = false
      ∧ current_task th
        = (if bool_decide (rank (t_pc th) ≤ 2)%nat then NULL else a_task k)
      ∧ ((0 < rank (t_pc th))%nat →
         loc_start th = a_fn k ∧ (c, OReadStart (a_fn k)) ∈ tr)
      ∧ ((1 < rank (t_pc th))%nat →
         loc_args th = a_args k ∧ (c, OReadArgs (a_args k)) ∈ tr)
      ∧ ((2 < rank (t_pc th))%nat → (c, OBind (a_task k)) ∈ tr)
      ∧ ((3 < rank (t_pc th))%nat →
         (c, OStackTop (a_stackTop k) (Z.pos (stack_of cfg c))) ∈ tr)
      ∧ ((4 < rank (t_pc th))%nat → (c, OPost) ∈ tr)
  end.

(** What holds of one activation of [tinygo_task_start] in a table of
    [n] threads. *)
Definition call_ok (n : nat) (pth : thread) (sc : scall) : Prop :=
  (s_pc sc = SSemInit → record_of (s_k sc) (state pth))
  ∧ (prepared sc = true →
     record_of (s_k sc) (state pth) ∧ startlock (state pth) = 0%nat)
  ∧ (awaiting sc = true → s_result sc = 0 → is_Some (s_child sc))
  ∧ (s_pc sc = SWait → s_result sc = 0)
  ∧ (finishing sc = true → s_result sc = 0 ∧ is_Some (s_child sc))
  ∧ (s_result sc ≠ 0 → s_child sc = None)
  ∧ (∀ c, s_child sc = Some c → (c < n)%nat).

(** What holds between a thread [c] and a thread [p]. *)
Definition pair_ok (c : tid) (cth : thread) (p : tid) (pth : thread) : Prop :=
  (∀ k, origin_of cth = Spawned p k → pre_post (t_pc cth) = true →
     ∃ sc, call pth = Some sc ∧ awaiting sc = true ∧ s_child sc = Some c
           ∧ s_result sc = 0 ∧ s_k sc = k ∧ record_of k (state pth))
  ∧ (∀ sc, call pth = Some sc → s_child sc = Some c →
     origin_of cth = Spawned p (s_k sc)
     ∧ (awaiting sc = true →
        startlock (state pth) = if pre_post (t_pc cth) then 0%nat else 1%nat)
     ∧ (finishing sc = true → pre_post (t_pc cth) = false)).

(** What each kind of event needs to find among the older ones. *)
Definition precedes_ok (cfg : config) (e : event) (older : list event) : Prop :=
  match e with
  | (p, OStartRet k 0 ch) =>
      ∃ c, ch = Some c
        ∧ (c, OReadStart (a_fn k)) ∈ older
        ∧ (c, OReadArgs (a_args k)) ∈ older
        ∧ (c, OBind (a_task k)) ∈ older
        ∧ (c, OStackTop (a_stackTop k) (Z.pos (stack_of cfg c))) ∈ older
        ∧ (c, OPost) ∈ older
  | (c, OEntry _ _) => (c, OPost) ∈ older
  | _ => True
  end.

Fixpoint trace_ok (cfg : config) (tr : list event) : Prop :=
  match tr with
  | [] => True
  | e :: older => precedes_ok cfg e older ∧ trace_ok cfg older
  end.

(** What [tinygo_task_current] answered so far, on each thread. *)
Definition answers_ok (m : machine) : Prop :=
  ∀ c v cth, (c, OCurrent v) ∈ trace m → threads m !! c = Some cth →
    match origin_of cth with
    | Main ia => v = NULL ∨ v = i_mainTask ia
    | Foreign => v = NULL
    | Spawned _ k => v = a_task k
    end.

Record inv (cfg : config) (m : machine) : Prop := Inv {
  inv_local : ∀ c th, threads m !! c = Some th → local_ok cfg (trace m) c th;
  inv_call : ∀ p pth sc, threads m !! p = Some pth → call pth = Some sc →
    call_ok (length (threads m)) pth sc;
  inv_pair : ∀ c cth p pth, threads m !! c = Some cth →
    threads m !! p = Some pth → pair_ok c cth p pth;
  inv_events : ∀ c o, (c, o) ∈ trace m → (c < length (threads m))%nat;
  inv_answers : answers_ok m;
  inv_trace : trace_ok cfg (trace m);
}.

(** ** Scripts, resources and measures *)

(** The events of thread [t], newest first. *)
Definition own (t : tid) (tr : list event) : list op :=
  omap (λ e : event, if decide (e.1 = t) then Some e.2 else None) tr.


(** What task code does, calls of [tinygo_task_start] included. *)
Definition task_op (o : op) : bool :=
  match o with
  | OCurrent _ | OKill _ _ _ | OStartCall _ | OTrap | OState | OSemInit
  | OAttrInit | ODetach | OStackSize _ | OCreate _ _ | OAttrDestroy
  | OSemWait | OSemDestroy | OStartRet _ _ _ => true
  | _ => false
  end.

(** [tinygo_task_init] statement by statement, newest first. *)
Definition init_script (cfg : config) (t : tid) (ia : init_args) : list op :=
  [ ONumCPU (i_numCPU ia) (numCPU_of_sysconf (sysconf_nprocs cfg));
    OSigaction (taskPauseSignal (c_host cfg) (c_sigs cfg));
    OSelf (i_thread ia) (Z.of_nat t);
    OInitBind (i_mainTask ia) ].

(** [start_wrapper] up to the call of the entry function, newest first. *)
Definition wrapper_prologue (cfg : config) (c : tid) (k : start_args) : list op :=
  [ OEntry (a_fn k) (a_args k);
    OPost;
    OStackTop (a_stackTop k) (Z.pos (stack_of cfg c));
    OBind (a_task k);
    OReadArgs (a_args k);
    OReadStart (a_fn k) ].

(** [start_wrapper] after the entry function, newest first. *)
Definition wrapper_epilogue (k : start_args) : list op :=
  [ OThreadRet; OExited (a_task k); OEntryRet ].

(** All that a thread of origin [o] has done when it stands at [q], newest
    first; [body] is what its task code did. *)
Definition lifecycle (cfg : config) (c : tid) (o : origin) (q : pc)
    (body : list op) : list op :=
  match o with
  | Main ia =>
      match q with
      | IBind => []
      | ISelf => drop 3 (init_script cfg c ia)
      | ISigaction => drop 2 (init_script cfg c ia)
      | INumCPU => drop 1 (init_script cfg c ia)
      | _ => body ++ init_script cfg c ia
      end
  | Foreign => body
  | Spawned _ k =>
      match q with
      | Running => body ++ wrapper_prologue cfg c k
      | WExited => drop 2 (wrapper_epilogue k) ++ body ++ wrapper_prologue cfg c k
      | WRet => drop 1 (wrapper_epilogue k) ++ body ++ wrapper_prologue cfg c k
      | Done => wrapper_epilogue k ++ body ++ wrapper_prologue cfg c k
      | _ => drop (6 - rank q) (wrapper_prologue cfg c k)
      end
  end.

(** Every thread has done what its origin and its program point say. *)
Definition lifecycle_ok (cfg : config) (m : machine) : Prop :=
  ∀ c cth, threads m !! c = Some cth →
    ∃ body, own c (trace m) = lifecycle cfg c (origin_of cth) (t_pc cth) body
            ∧ forallb task_op body = true.

(** [tinygo_task_start] from the call up to [pthread_create], newest
    first. *)
Definition start_prologue (k : start_args) : list op :=
  [ OStackSize (a_stackSize k); ODetach; OAttrInit; OSemInit; OState;
    OStartCall k ].

(** One call of [tinygo_task_start] whose [pthread_create] answered [r]
    and made [ch], from the call to just before the return, newest
    first: the two semaphore operations are there for [r = 0] only. *)
Definition start_steps (k : start_args) (r : Z) (ch : option tid) : list op :=
  (if decide (r = 0) then [OSemDestroy; OSemWait] else [])
  ++ [OAttrDestroy; OCreate r ch] ++ start_prologue k.

(** What an activation of [tinygo_task_start] has done so far. *)
Definition start_script (sc : scall) : list op :=
  let k := s_k sc in
  let created := OCreate (s_result sc) (s_child sc) in
  match s_pc sc with
  | SCheck | SState => drop 5 (start_prologue k)
  | SSemInit => drop 4 (start_prologue k)
  | SAttrInit => drop 3 (start_prologue k)
  | SDetach => drop 2 (start_prologue k)
  | SStackSize => drop 1 (start_prologue k)
  | SCreate => start_prologue k
  | SAttrDestroy => created :: start_prologue k
  | STest | SWait => OAttrDestroy :: created :: start_prologue k
  | SSemDestroy => OSemWait :: OAttrDestroy :: created :: start_prologue k
  | SRet =>
      OSemDestroy :: OSemWait :: OAttrDestroy :: created :: start_prologue k
  end.

(** Every return of [tinygo_task_start] in a thread's events has the
    steps of one whole call right before it. *)
Fixpoint returns_ok (l : list op) : Prop :=
  match l with
  | [] => True
  | o :: older =>
      match o with
      | OStartRet k r ch =>
          (r = 0 ↔ is_Some ch) ∧ ∃ rest, older = start_steps k r ch ++ rest
      | _ => True
      end ∧ returns_ok older
  end.

(** The returns of every thread are in order, and so is what a call
    under way has done. *)
Definition calls_ok (m : machine) : Prop :=
  ∀ p pth, threads m !! p = Some pth →
    returns_ok (own p (trace m))
    ∧ (trapped m = false → ∀ sc, call pth = Some sc →
         ∃ rest, own p (trace m) = start_script sc ++ rest).

(** The main thread is thread 0 and no other. *)
Definition main_ok (m : machine) : Prop :=
  ∀ t th, threads m !! t = Some th →
    (t = 0%nat ↔ ∃ ia, origin_of th = Main ia).

(** The check at the head of [tinygo_task_start] passes. *)
Definition sizes_agree (cfg : config) : Prop :=
  sizeof_pthread_t (c_abi cfg) = sizeof_voidp (c_abi cfg).

(** [tinygo_task_start] has made nothing yet: no thread, no semaphore,
    no attribute object, and every call stands at its first statement. *)
Definition unlaunched (m : machine) : Prop :=
  live m = []
  ∧ ∀ t th, threads m !! t = Some th →
      (∀ p k, origin_of th ≠ Spawned p k)
      ∧ ∀ sc, call th = Some sc → s_pc sc = SCheck.

(** When the process has trapped, and what it has not done when the
    sizes differ. *)
Definition trap_ok (cfg : config) (m : machine) : Prop :=
  (trapped m = true ↔ ∃ t, (t, OTrap) ∈ trace m)
  ∧ (trapped m = true → ¬ sizes_agree cfg)
  ∧ (¬ sizes_agree cfg → unlaunched m).

(** The activation on this thread is between [pthread_attr_init] and
    [pthread_attr_destroy]. *)
Definition attr_held (th : thread) : bool :=
  match call th with
  | Some sc =>
      match s_pc sc with
      | SDetach | SStackSize | SCreate | SAttrDestroy => true
      | _ => false
      end
  | None => false
  end.

(** The activation on this thread is between [sem_init] and
    [sem_destroy]. *)
Definition sem_held (th : thread) : bool :=
  match call th with
  | Some sc =>
      match s_pc sc with
      | SCheck | SState | SSemInit | SRet => false
      | _ => true
      end
  | None => false
  end.

(** The attribute objects alive are those of the calls that hold one. *)
Definition attr_ok (m : machine) : Prop :=
  ∀ p, RAttr p ∈ live m ↔ ∃ pth, threads m !! p = Some pth ∧ attr_held pth = true.

(** No call of [pthread_create] has failed or is going to. *)
Definition never_fails (m : machine) : Prop :=
  Forall (λ r, r = 0) (create_results m)
  ∧ ∀ p pth sc, threads m !! p = Some pth → call pth = Some sc →
      s_result sc = 0.

(** The semaphores alive are those of the calls that hold one. *)
Definition sem_ok (m : machine) : Prop :=
  ∀ p, RSem p ∈ live m ↔ ∃ pth, threads m !! p = Some pth ∧ sem_held pth = true.

(** Every activation was called, and every thread that runs
    [start_wrapper] was made by [pthread_create] in a call with its
    parameters. *)
Definition provenance_ok (m : machine) : Prop :=
  (∀ p pth sc, threads m !! p = Some pth → call pth = Some sc →
     (p, OStartCall (s_k sc)) ∈ trace m)
  ∧ (∀ c cth p k, threads m !! c = Some cth → origin_of cth = Spawned p k →
       (p, OStartCall k) ∈ trace m ∧ (p, OCreate 0 (Some c)) ∈ trace m)
  ∧ (∀ p r ch, (p, OCreate r ch) ∈ trace m →
       match ch with
       | Some c => r = 0 ∧ ∃ cth k, threads m !! c = Some cth
                                   ∧ origin_of cth = Spawned p k
       | None => r ≠ 0
       end).

(** Every word this file has stored lies where a caller pointed: at
    [thread] or [numCPU] of [tinygo_task_init], or at [thread] or
    [stackTop] of a call of [tinygo_task_start]. *)
Definition frame_ok (m : machine) : Prop :=
  ∀ a v, mem m !! a = Some v →
    (∃ th ia, threads m !! 0%nat = Some th ∧ origin_of th = Main ia
              ∧ (a = i_thread ia ∨ a = i_numCPU ia))
    ∨ (∃ p k, (p, OStartCall k) ∈ trace m
              ∧ (a = a_thread k ∨ a = a_stackTop k)).

(** Statements of [tinygo_task_start] still to run, the return
    included. *)
Definition spc_left (q : spc) : nat :=
  match q with
  | SCheck => 12 | SState => 11 | SSemInit => 10 | SAttrInit => 9
  | SDetach => 8 | SStackSize => 7 | SCreate => 6 | SAttrDestroy => 5
  | STest => 4 | SWait => 3 | SSemDestroy => 2 | SRet => 1
  end.

(** Statements of [start_wrapper] that the thread of this call has
    still to run before it has posted. *)
Definition child_left (m : machine) (sc : scall) : nat :=
  if bool_decide (5 < spc_left (s_pc sc))%nat then 5%nat
  else match s_child sc with
       | Some c =>
           match threads m !! c with
           | Some cth => if pre_post (t_pc cth) then (5 - rank (t_pc cth))%nat else 0%nat
           | None => 0%nat
           end
       | None => 0%nat
       end.

(** Steps that bring a call to its return. *)
Definition steps_left (m : machine) (sc : scall) : nat :=
  (spc_left (s_pc sc) + child_left m sc)%nat.

(** Calls of the entry function, calls of [tinygo_task_exited]. *)
Definition is_entry (o : op) : bool :=
  match o with OEntry _ _ => true | _ => false end.
Definition is_exited (o : op) : bool :=
  match o with OExited _ => true | _ => false end.

(** How often an event of one kind occurs. *)
Definition count (P : op → bool) (l : list op) : nat :=
  length (filter (λ o, P o = true) l).

(** ** Concrete machines used as examples *)

Definition cfg_linux : config :=
  Config Linux usual_signals lp64 (λ t, Pos.of_nat (4096 * (t + 1)))
    (λ fn _, if decide (fn = 100) then [UCurrent] else []) 4.

Definition cfg_apple : config :=
  Config Apple usual_signals lp64 (λ t, Pos.of_nat (4096 * (t + 1)))
    (λ fn _, if decide (fn = 100) then [UCurrent] else []) 4.

Definition cfg_wide : config :=
  Config Linux usual_signals wide_pthread (λ t, Pos.of_nat (4096 * (t + 1)))
    (λ _ _, []) 4.

Definition ia0 : init_args := InitArgs 9 500 501.
Definition k0 : start_args := StartArgs 100 7 55 1000 2000 65536.
Definition k_null : start_args := StartArgs 100 7 NULL 1000 2000 65536.
Definition k1 : start_args := StartArgs 101 8 56 1001 2001 65536.

(* ===================================================================== *)
(** * Part II: properties                                                 *)
(* ===================================================================== *)

(** ** The sequential functions *)

Lemma to_int_range (z : Z) : INT_MIN ≤ to_int z ≤ INT_MAX.
Proof.
  unfold to_int, INT_MIN, INT_MAX.
  pose proof (Z.mod_pos_bound (z + 2 ^ 31) (2 ^ 32) ltac:(lia)). lia.
Qed.

Lemma to_int_small (z : Z) : INT_MIN ≤ z ≤ INT_MAX → to_int z = z.
Proof.
  unfold to_int, INT_MIN, INT_MAX. intros Hz.
  rewrite Z.mod_small; lia.
Qed.

Lemma numCPU_of_sysconf_spec (r : Z) :
  1 ≤ numCPU_of_sysconf r ≤ INT_MAX
  ∧ (to_int r ≤ 0 → numCPU_of_sysconf r = 1)
  ∧ (0 < to_int r → numCPU_of_sysconf r = to_int r).
Proof.
  unfold numCPU_of_sysconf. pose proof (to_int_range r) as Hr.
  destruct (Z.leb_spec (to_int r) 0); unfold INT_MAX in *; lia.
Qed.

(** ** Lookups after an update *)

Lemma lookup_upd (t : tid) (f : thread → thread) (m : machine) (x : tid) :
  threads (upd t f m) !! x
  = if decide (x = t) then f <$> threads m !! x else threads m !! x.
Proof.
  simpl. destruct (decide (x = t)) as [->|Hne].
  - apply list_lookup_alter_eq.
  - by apply list_lookup_alter_ne.
Qed.

Lemma length_upd (t : tid) (f : thread → thread) (m : machine) :
  length (threads (upd t f m)) = length (threads m).
Proof. simpl. apply length_alter. Qed.

Lemma run_app (c : config) (s1 s2 : list tid) (m : machine) :
  run c (s1 ++ s2) m = run c s2 (run c s1 m).
Proof. unfold run. apply foldl_app. Qed.

Lemma reachable_boot (c : config) ia code foreign oracle :
  reachable c (boot ia code foreign oracle).
Proof. by exists ia, code, foreign, oracle, []. Qed.

Lemma reachable_step (c : config) (t : tid) (m m' : machine) :
  reachable c m → step c t m = Some m' → reachable c m'.
Proof.
  intros (ia & code & fo & orc & sched & ->) Hs.
  exists ia, code, fo, orc, (sched ++ [t]).
  rewrite run_app. simpl. by rewrite Hs.
Qed.

Lemma reachable_run (c : config) (sched : list tid) (m : machine) :
  reachable c m → reachable c (run c sched m).
Proof.
  intros (ia & code & fo & orc & s0 & ->).
  exists ia, code, fo, orc, (s0 ++ sched). by rewrite run_app.
Qed.

(** Induction over the steps of a run. *)
Lemma run_ind (cfg : config) (P : machine → Prop) (sched : list tid) (m0 : machine) :
  reachable cfg m0 → P m0 →
  (∀ t m m', reachable cfg m → P m → step cfg t m = Some m' → P m') →
  P (run cfg sched m0).
Proof.
  intros Hr H0 Hstep. revert m0 Hr H0.
  induction sched as [|t sched IH]; intros m0 Hr H0; [done|].
  simpl. destruct (step cfg t m0) as [m'|] eqn:Hs; simpl.
  - apply IH; [by eapply reachable_step|by eapply Hstep].
  - by apply IH.
Qed.

Lemma reachable_ind (cfg : config) (P : machine → Prop) :
  (∀ ia code foreign oracle, P (boot ia code foreign oracle)) →
  (∀ t m m', reachable cfg m → P m → step cfg t m = Some m' → P m') →
  ∀ m, reachable cfg m → P m.
Proof.
  intros H0 Hstep m (ia & code & fo & orc & sched & ->).
  apply run_ind; [apply reachable_boot|apply H0|done].
Qed.

(** ** Proof automation *)

Lemma alter_lookup_inv (f : thread → thread) (t : tid) (l : list thread) x y :
  alter f t l !! x = Some y →
  (x = t ∧ ∃ y0, l !! t = Some y0 ∧ y = f y0) ∨ (x ≠ t ∧ l !! x = Some y).
Proof.
  destruct (decide (x = t)) as [->|Hne].
  - rewrite list_lookup_alter_eq. intros (y0 & ? & ->)%fmap_Some. eauto.
  - rewrite list_lookup_alter_ne by done. eauto.
Qed.

Lemma snoc_lookup_inv (l : list thread) (new : thread) x y :
  (l ++ [new]) !! x = Some y →
  (l !! x = Some y) ∨ (x = length l ∧ y = new).
Proof.
  intros H. destruct (decide (x < length l)%nat).
  - rewrite lookup_app_l in H by done. eauto.
  - rewrite lookup_app_r in H by lia.
    destruct (x - length l)%nat eqn:E; simpl in H; [|by destruct n0].
    right. split; [lia|congruence].
Qed.

(** One case per statement that thread [t] can run: from
    [Hstep : step cfg t m = Some m'] to [m'] written out. *)
Ltac step_cases Hstep th Ht :=
  unfold step in Hstep;
  destruct (trapped _) eqn:?; [discriminate|];
  destruct (threads _ !! _) as [th|] eqn:Ht; simpl in Hstep; [|discriminate];
  unfold step_thread in Hstep;
  destruct (t_pc th) eqn:?;
  repeat match type of Hstep with
  | context [threads ?m !! w_state th] =>
      destruct (threads m !! w_state th) eqn:?; simpl in Hstep
  | context [match call th with _ => _ end] =>
      destruct (call th) as [?sc|] eqn:?
  | context [match todo th with _ => _ end] =>
      destruct (todo th) as [|[]] eqn:?
  | context [step_start] => unfold step_start in Hstep
  | context [step_user] =>
      unfold step_user, tinygo_task_send_gc_signal, pthread_kill in Hstep
  | context [thread_alive ?m ?x] => destruct (thread_alive m x) eqn:?
  | context [match s_pc ?sc with _ => _ end] =>
      destruct sc as [[] ?k ?res ?ch]; simpl in Hstep
  | context [decide ?P] => destruct (decide P)
  | context [match startlock ?s with _ => _ end] =>
      destruct (startlock s) eqn:?
  | context [match origin_of th with _ => _ end] =>
      destruct (origin_of th) eqn:?
  end; try discriminate; injection Hstep as <-.

(** A lookup in the new table is a lookup in the old one. *)
Ltac inv_lookup :=
  repeat (match goal with
  | H : alter _ _ _ !! _ = Some _ |- _ =>
      apply alter_lookup_inv in H as [(? & ? & ? & ?)|[? ?]]
  | H : (_ ++ [_]) !! _ = Some _ |- _ =>
      apply snoc_lookup_inv in H as [?|[? ?]]
  end; simplify_eq).

Ltac use_eqs :=
  repeat match goal with
  | H : origin_of ?th = _ |- _ => rewrite H in *; clear H
  | H : t_pc ?th = _ |- _ => rewrite H in *; clear H
  | H : call ?th = _ |- _ => rewrite H in *; clear H
  end.

Ltac know_origin Ht :=
  try match goal with
  | H : origin_of _ = _ |- _ => idtac
  | _ => match type of Ht with _ = Some ?th => destruct (origin_of th) eqn:? end
  end.

(** Forward steps: use the premises that are at hand. *)
Ltac fwd :=
  repeat (match goal with
  | H : ?x = ?x → _ |- _ => specialize (H eq_refl)
  | H : ?P → _, H' : ?P |- _ =>
      match type of P with Prop => specialize (H H') end
  | H : ∀ k, Spawned ?p ?k0 = Spawned ?p k → _ |- _ => specialize (H _ eq_refl)
  | H : ∀ sc, Some ?x = Some sc → _ |- _ => specialize (H _ eq_refl)
  | H : ∀ c, s_child ?sc = Some c → _, H' : s_child ?sc = Some _ |- _ =>
      specialize (H _ H')
  | H : is_Some (Some _) → _ |- _ => specialize (H ltac:(eauto))
  | H : (_ < _)%nat → _ |- _ => first [specialize (H ltac:(lia))|clear H]
  | H : ¬ (?x ≠ 0) |- _ => assert (x = 0) by lia; clear H
  | H : ∃ _, _ |- _ => destruct H
  | H : _ ∧ _ |- _ => destruct H
  end; simplify_eq/=).

Ltac split_scall :=
  repeat match goal with
  | H : context [s_pc ?sc] |- _ =>
      is_var sc; destruct sc as [[] ? ? ?]; simpl in *
  end.

Ltac unfold_defs :=
  unfold call_ok, local_ok, pair_ok, record_of, prepared, awaiting, finishing
    in *; simpl in *.

(** What the invariant says of the threads that are in sight. *)
Ltac gather_calls Hinv :=
  repeat match goal with
  | H : threads ?m !! ?a = Some ?x, Hc : call ?x = Some ?sc |- _ =>
      lazymatch goal with
      | _ : call_ok _ x sc |- _ => fail
      | _ => pose proof (inv_call _ _ Hinv _ _ _ H Hc)
      end
  end.

Ltac gather Hinv :=
  repeat match goal with
  | H : threads ?m !! ?a = Some ?x |- _ =>
      lazymatch goal with
      | _ : (a < length (threads m))%nat |- _ => fail
      | _ => pose proof (lookup_lt_Some _ _ _ H)
      end
  end;
  repeat match goal with
  | H : threads ?m !! ?a = Some ?x |- _ =>
      lazymatch goal with
      | _ : local_ok _ _ a x |- _ => fail
      | _ => pose proof (inv_local _ _ Hinv _ _ H)
      end
  end;
  repeat match goal with
  | H : threads ?m !! ?a = Some ?x |- _ =>
      lazymatch goal with
      | _ : pair_ok a x a x |- _ => fail
      | _ => pose proof (inv_pair _ _ Hinv _ _ _ _ H H)
      end
  end;
  repeat match goal with
  | H1 : threads ?m !! ?a = Some ?x, H2 : threads ?m !! ?b = Some ?y |- _ =>
      lazymatch goal with
      | _ : pair_ok a x b y |- _ => fail
      | _ => pose proof (inv_pair _ _ Hinv _ _ _ _ H1 H2)
      end
  end;
  gather_calls Hinv.

Ltac crunch Hinv :=
  unfold_defs; use_eqs; simpl in *; destruct_and?; simplify_eq/=; fwd;
  repeat split; intros; simplify_eq/=;
  gather_calls Hinv; unfold_defs; use_eqs; simpl in *;
  rewrite ?length_app, ?length_alter in *; simpl in *; fwd;
  try done; try lia; try congruence; try (by auto);
  try (by inversion select (is_Some None));
  try (by eexists; split_and!; simpl; auto; congruence);
  try (by split_scall; fwd);
  try (by repeat match goal with
          | H : context [if pre_post ?q then _ else _] |- _ =>
              destruct (pre_post q) eqn:?
          end; simplify_eq/=; congruence);
  try (by rewrite ?elem_of_cons; intuition (auto; first [lia|congruence])).

(** ** Preservation of the invariants *)

Lemma local_ok_mono cfg tr tr' c th :
  local_ok cfg tr c th → tr ⊆ tr' → local_ok cfg tr' c th.
Proof.
  unfold local_ok. intros [H1 H2] Hsub. split; [done|].
  destruct (origin_of th); [done..|].
  destruct H2 as (?&?&?&?&?&?&?&?&?).
  repeat split; try tauto; intros; apply Hsub; tauto.
Qed.

Lemma call_ok_mono n n' pth sc :
  call_ok n pth sc → (n ≤ n')%nat → call_ok n' pth sc.
Proof.
  unfold call_ok. intros (H1&H2&H3&H4&H5&H6&H7) Hn. split_and!; try done.
  intros c Hc. specialize (H7 c Hc). lia.
Qed.

(** [pair_ok] looks at the origin and the progress of the one thread and
    at the call and the record of the other. *)
Lemma pair_ok_ext c cth cth' p pth pth' :
  origin_of cth' = origin_of cth →
  pre_post (t_pc cth') = pre_post (t_pc cth) →
  call pth' = call pth →
  state pth' = state pth →
  pair_ok c cth p pth → pair_ok c cth' p pth'.
Proof. unfold pair_ok. by intros -> -> -> ->. Qed.

Lemma step_local cfg t m m' : inv cfg m → step cfg t m = Some m' →
  ∀ c th, threads m' !! c = Some th → local_ok cfg (trace m') c th.
Proof.
  intros Hinv Hstep c cth Hc.
  step_cases Hstep th Ht; simpl in Hc; inv_lookup;
  repeat match goal with
  | |- local_ok ?cfg ?tr ?c (set_startlock _ ?x) => change (local_ok cfg tr c x)
  end;
  first
  [ by eapply (inv_local _ _ Hinv)
  | by eapply local_ok_mono; [by eapply (inv_local _ _ Hinv)|simpl; set_solver]
  | gather Hinv; know_origin Ht; solve [once (crunch Hinv)] ].
Qed.

Lemma step_call cfg t m m' : inv cfg m → step cfg t m = Some m' →
  ∀ p pth sc, threads m' !! p = Some pth → call pth = Some sc →
    call_ok (length (threads m')) pth sc.
Proof.
  intros Hinv Hstep p pth sc' Hp Hsc.
  step_cases Hstep th Ht; simpl in Hp; inv_lookup;
  first
  [ by eapply call_ok_mono;
      [by eapply (inv_call _ _ Hinv)
      |simpl; rewrite ?length_app, ?length_alter; lia]
  | simpl in Hsc; gather Hinv; know_origin Ht; solve [once (crunch Hinv)] ].
Qed.

Lemma step_pair cfg t m m' : inv cfg m → step cfg t m = Some m' →
  ∀ c cth p pth, threads m' !! c = Some cth → threads m' !! p = Some pth →
    pair_ok c cth p pth.
Proof.
  intros Hinv Hstep c cth p pth Hc Hp.
  step_cases Hstep th Ht; simpl in Hp, Hc; inv_lookup;
  first
  [ by eapply (inv_pair _ _ Hinv)
  | by eapply pair_ok_ext; [..|by eapply (inv_pair _ _ Hinv)];
       simpl; repeat match goal with H : t_pc _ = _ |- _ => rewrite H end
  | gather Hinv; know_origin Ht; solve [once (crunch Hinv)] ].
Qed.

Lemma step_trace cfg t m m' :
  step cfg t m = Some m' → trace m' = trace m ∨ ∃ o, trace m' = (t, o) :: trace m.
Proof. intros Hstep. step_cases Hstep th Ht; simpl; eauto. Qed.

Lemma step_length cfg t m m' :
  step cfg t m = Some m' → (length (threads m) ≤ length (threads m'))%nat.
Proof.
  intros Hstep. step_cases Hstep th Ht; simpl;
    rewrite ?length_app, ?length_alter; lia.
Qed.

Lemma step_origin cfg t m m' x xth' :
  step cfg t m = Some m' → threads m' !! x = Some xth' →
  (x < length (threads m))%nat →
  ∃ xth, threads m !! x = Some xth ∧ origin_of xth = origin_of xth'
         ∧ w_state xth = w_state xth'.
Proof.
  intros Hstep Hx Hlt. step_cases Hstep th Ht; simpl in Hx; inv_lookup;
    rewrite ?length_alter in *; try lia; eauto.
Qed.

Lemma step_events cfg t m m' : inv cfg m → step cfg t m = Some m' →
  ∀ c o, (c, o) ∈ trace m' → (c < length (threads m'))%nat.
Proof.
  intros Hinv Hstep c o Hin.
  pose proof (step_length _ _ _ _ Hstep) as Hlen.
  assert (t < length (threads m))%nat as Ht.
  { unfold step in Hstep. destruct (trapped m); [done|].
    destruct (threads m !! t) eqn:E; [|done]. by eapply lookup_lt_Some. }
  destruct (step_trace _ _ _ _ Hstep) as [Htr|[o' Htr]]; rewrite Htr in Hin.
  - pose proof (inv_events _ _ Hinv _ _ Hin). lia.
  - apply elem_of_cons in Hin as [[= -> ->]|Hin]; [lia|].
    pose proof (inv_events _ _ Hinv _ _ Hin). lia.
Qed.

Lemma step_answers cfg t m m' : inv cfg m → step cfg t m = Some m' → answers_ok m'.
Proof.
  intros Hinv Hstep c v cth' Hin Hc.
  assert ((c, OCurrent v) ∈ trace m ∨
          (c = t ∧ ∃ th, threads m !! t = Some th ∧ t_pc th = Running
                         ∧ v = current_task th)) as [Hold|(-> & th & Ht & Hpc & ->)].
  { clear Hc. step_cases Hstep th Ht; simpl in Hin;
      rewrite ?elem_of_cons in Hin; destruct_or?; simplify_eq; eauto 10. }
  - pose proof (inv_events _ _ Hinv _ _ Hold) as Hlt.
    destruct (step_origin _ _ _ _ _ _ Hstep Hc Hlt) as (cth & Hc0 & Ho & _).
    rewrite <- Ho. by eapply (inv_answers _ _ Hinv).
  - pose proof (lookup_lt_Some _ _ _ Ht) as Hlt.
    destruct (step_origin _ _ _ _ _ _ Hstep Hc Hlt) as (cth & Hc0 & Ho & _).
    assert (cth = th) as -> by congruence. rewrite <- Ho.
    pose proof (inv_local _ _ Hinv _ _ Ht) as [_ Hl].
    destruct (origin_of th); rewrite Hpc in Hl; simpl in Hl; tauto.
Qed.


Lemma spawned_signalled_rank (q : pc) :
  in_init q = false → pre_post q = false → (4 < rank q)%nat.
Proof. destruct q; simpl; intros; try done; lia. Qed.

Lemma step_trace_ok cfg t m m' : inv cfg m → step cfg t m = Some m' →
  trace_ok cfg (trace m').
Proof.
  intros Hinv Hstep. pose proof (inv_trace _ _ Hinv) as Htr.
  step_cases Hstep th Ht; simpl; try done; (split; [|done]); simpl; try done.
  - (* start(args) is called *)
    pose proof (inv_local _ _ Hinv _ _ Ht) as [_ Hl].
    destruct (origin_of th); use_eqs; simpl in Hl; destruct_and?; try done.
    auto with lia.
  - (* return after a failed pthread_create *)
    by destruct res.
  - (* return after the rendezvous *)
    pose proof (inv_call _ _ Hinv _ _ _ Ht ltac:(done)) as Hc.
    destruct Hc as (_ & _ & _ & _ & Hfin & _ & Hlt).
    destruct (Hfin eq_refl) as [Hres [c Hch]]. simpl in Hres, Hch. subst.
    specialize (Hlt c eq_refl).
    destruct (lookup_lt_is_Some_2 _ _ Hlt) as [cth Hcth].
    destruct (inv_pair _ _ Hinv _ _ _ _ Hcth Ht) as [_ Hp].
    destruct (Hp _ ltac:(done) eq_refl) as (Ho & _ & Hpost). simpl in Ho.
    specialize (Hpost eq_refl).
    pose proof (inv_local _ _ Hinv _ _ Hcth) as [_ Hl]. rewrite Ho in Hl.
    destruct Hl as (_ & _ & Hi & _ & H0 & H1 & H2 & H3 & H4).
    pose proof (spawned_signalled_rank _ Hi Hpost).
    exists c. split; [done|].
    split_and!; [apply H0|apply H1|apply H2|apply H3|apply H4]; lia.
Qed.

Lemma inv_boot cfg ia code foreign oracle : inv cfg (boot ia code foreign oracle).
Proof.
  assert (∀ x xth, threads (boot ia code foreign oracle) !! x = Some xth →
            call xth = None ∧ current_task xth = NULL ∧
            ((origin_of xth = Main ia ∧ t_pc xth = IBind) ∨
             (origin_of xth = Foreign ∧ t_pc xth = Running))) as Hb.
  { intros [|x] xth; simpl.
    - intros [= <-]. simpl. auto.
    - rewrite list_lookup_fmap. intros (? & ? & ->)%fmap_Some. simpl. auto. }
  split.
  - intros c th Hc. destruct (Hb _ _ Hc) as (Hcall & Hcur & Ho).
    split; [rewrite Hcall; by intros [? ?]|].
    destruct Ho as [[-> ->]|[-> ->]]; simpl; auto.
  - intros p pth sc Hp Hsc. destruct (Hb _ _ Hp) as (Hcall & _). congruence.
  - intros c cth p pth Hc Hp.
    destruct (Hb _ _ Hc) as (_ & _ & Ho), (Hb _ _ Hp) as (Hcall & _).
    split.
    + intros k Hk. destruct Ho as [[? ?]|[? ?]]; congruence.
    + intros sc Hsc. congruence.
  - intros c o Hin. simpl in Hin. by apply elem_of_nil in Hin.
  - intros c v cth Hin. simpl in Hin. by apply elem_of_nil in Hin.
  - done.
Qed.

Lemma inv_step cfg t m m' : inv cfg m → step cfg t m = Some m' → inv cfg m'.
Proof.
  intros Hinv Hstep. split.
  - by eapply step_local.
  - by eapply step_call.
  - by eapply step_pair.
  - by eapply step_events.
  - by eapply step_answers.
  - by eapply step_trace_ok.
Qed.

Lemma inv_run cfg sched m : inv cfg m → inv cfg (run cfg sched m).
Proof.
  revert m. induction sched as [|t sched IH]; intros m Hinv; [done|].
  simpl. apply IH. destruct (step cfg t m) eqn:Hs; simpl; [|done].
  by eapply inv_step.
Qed.

Lemma inv_reachable cfg m : reachable cfg m → inv cfg m.
Proof.
  intros (ia & code & fo & orc & sched & ->). apply inv_run, inv_boot.
Qed.

(* ===================================================================== *)
(** * Part III: the claims                                                *)
(* ===================================================================== *)

(** ** The collector hooks (gc_boehm.c) *)

(** C5, as the code has it: the root-scan registration always installs
    [callback]; on WebAssembly it installs a warning procedure that throws
    away every warning of the collector, whatever its text; elsewhere the
    collector's warning procedure is left as it was. *)
Theorem bdwgc_init_discards_all_warnings_on_wasm (g : collector) :
  (∀ wasm, push_other_roots (tinygo_runtime_bdwgc_init wasm g) = Some callback)
  ∧ (∀ msg arg, GC_warn (tinygo_runtime_bdwgc_init true g) msg arg = [])
  ∧ (∀ msg arg,
       GC_warn (tinygo_runtime_bdwgc_init false g) msg arg = GC_warn g msg arg).
Proof. split_and!; [by intros []|done|done]. Qed.

(** C5, as stated, fails: a warning that is not of the large-block class
    is printed by a fresh collector and is silenced after
    [tinygo_runtime_bdwgc_init] on WebAssembly. *)
Lemma warn_proc_silences_heap_exhaustion :
  is_large_block_warning heap_exhausted_text = false
  ∧ GC_warn GC_fresh heap_exhausted_text 0 = [heap_exhausted_text]
  ∧ GC_warn (tinygo_runtime_bdwgc_init true GC_fresh) heap_exhausted_text 0 = [].
Proof. split_and!; reflexivity. Qed.

(** ** The CPU count *)

(** C10: [tinygo_task_init], run on the main thread from process start,
    leaves in [*numCPU] a count of at least 1: the value of
    [sysconf(_SC_NPROCESSORS_ONLN)] as an [int] when that is positive,
    and 1 when it is not (in particular for the failure value -1). *)
Theorem tinygo_task_init_stores_positive_numCPU
    (cfg : config) (ia : init_args) (code : list uaction)
    (foreign : list (list uaction)) (oracle : list Z) :
  let m := run cfg [0; 0; 0; 0]%nat (boot ia code foreign oracle) in
  let r := sysconf_nprocs cfg in
  ∃ n, mem m !! i_numCPU ia = Some n
    ∧ 1 ≤ n ≤ INT_MAX
    ∧ (to_int r ≤ 0 → n = 1)
    ∧ (INT_MIN ≤ r ≤ 0 → n = 1)
    ∧ (r = -1 → n = 1)
    ∧ (0 < r ≤ INT_MAX → n = r).
Proof.
  intros m r. exists (numCPU_of_sysconf r).
  destruct (numCPU_of_sysconf_spec r) as (Hpos & Hle & Hgt).
  refine (conj _ (conj Hpos (conj Hle (conj _ (conj _ _))))).
  - subst m. unfold run, step; simpl. unfold store; simpl.
    apply lookup_insert_eq.
  - intros Hr. apply Hle. rewrite to_int_small; unfold INT_MAX; lia.
  - intros ->. by apply Hle.
  - intros Hr. rewrite Hgt; rewrite to_int_small; unfold INT_MIN; lia.
Qed.

Lemma tinygo_task_init_stores_positive_numCPU_witness :
  let m := run cfg_linux [0; 0; 0; 0]%nat (boot ia0 [] [] []) in
  0 < sysconf_nprocs cfg_linux ≤ INT_MAX
  ∧ mem m !! i_numCPU ia0 = Some 4.
Proof.
  split; [by vm_compute|].
  destruct (tinygo_task_init_stores_positive_numCPU cfg_linux ia0 [] [] [])
    as (n & Hn & _ & _ & _ & _ & Hr).
  rewrite Hn, Hr; [done|by vm_compute].
Defined.

(** ** The size check of [tinygo_task_start] *)

Lemma step_trapped (cfg : config) (t : tid) (m : machine) :
  trapped m = true → step cfg t m = None.
Proof. unfold step. by intros ->. Qed.

Lemma run_trapped (cfg : config) (sched : list tid) (m : machine) :
  trapped m = true → run cfg sched m = m.
Proof.
  intros Htr. induction sched as [|t sched IH]; [done|].
  simpl. rewrite step_trapped by done. apply IH.
Qed.

(** C8, as the code has it: the sizes are compared by the first statement
    of every call of [tinygo_task_start]; when they differ (wider or
    narrower) that statement traps, before the record, the semaphore or
    a thread is made, and no thread of the process runs again; when they
    agree the call goes on. *)
Theorem tinygo_task_start_traps_on_size_mismatch
    (cfg : config) (t : tid) (th : thread) (sc : scall) (m : machine) :
  trapped m = false →
  threads m !! t = Some th → t_pc th = Running →
  call th = Some sc → s_pc sc = SCheck →
  (sizeof_pthread_t (c_abi cfg) ≠ sizeof_voidp (c_abi cfg) →
     step cfg t m = Some (emit t OTrap (trap m))
     ∧ threads (emit t OTrap (trap m)) = threads m
     ∧ live (emit t OTrap (trap m)) = live m
     ∧ ∀ sched, run cfg sched (emit t OTrap (trap m)) = emit t OTrap (trap m))
  ∧ (sizeof_pthread_t (c_abi cfg) = sizeof_voidp (c_abi cfg) →
     ∃ m', step cfg t m = Some m' ∧ trapped m' = false).
Proof.
  intros Htr Ht Hpc Hcall Hspc. unfold step. rewrite Htr, Ht. simpl.
  unfold step_thread. rewrite Hpc, Hcall. unfold step_start. rewrite Hspc.
  split; intros Hsz.
  - rewrite decide_False by done. split_and!; try done.
    intros sched. by apply run_trapped.
  - rewrite decide_True by done. eexists. split; [done|]. done.
Qed.

Lemma tinygo_task_start_traps_on_size_mismatch_witness :
  let m := run cfg_wide [0; 0; 0; 0; 0]%nat (boot ia0 [UStart k0] [] []) in
  sizeof_pthread_t (c_abi cfg_wide) ≠ sizeof_voidp (c_abi cfg_wide)
  ∧ step cfg_wide 0%nat m = Some (emit 0%nat OTrap (trap m)).
Proof.
  intros m. split; [by vm_compute|].
  eapply (tinygo_task_start_traps_on_size_mismatch cfg_wide 0%nat);
    try (by vm_compute).
Defined.

(** C8, as stated, fails: where [pthread_t] is wider than a pointer,
    [tinygo_task_init] runs to its end, stores the thread identity through
    [thread], and the process goes on untrapped. *)
Lemma tinygo_task_init_ignores_size_mismatch :
  let m := run cfg_wide [0; 0; 0; 0]%nat (boot ia0 [] [] []) in
  sizeof_pthread_t (c_abi cfg_wide) > sizeof_voidp (c_abi cfg_wide)
  ∧ trapped m = false
  ∧ t_pc <$> threads m !! 0%nat = Some Running
  ∧ mem m !! i_thread ia0 = Some 0.
Proof. by vm_compute. Qed.

(** ** The pause protocol *)

Lemma posix_checked_kill (sig : Z) : posix_kill checked_kill sig.
Proof. intros m thr H. unfold checked_kill. by rewrite H. Qed.





(** ** Failure of [pthread_create] *)

(** C3, at the failing input: [pthread_create] answers [EAGAIN].  The
    call returns [EAGAIN] at once, without [sem_wait] and without a new
    thread, and the attribute object is destroyed; the semaphore of the
    record, made by [sem_init] or [dispatch_semaphore_create], is still
    there after the return. *)
Theorem failed_start_leaves_the_semaphore :
  let after_failure (cfg : config) :=
    run cfg (replicate 14 0%nat) (boot ia0 [UStart k0] [] [EAGAIN]) in
  let leaks (m : machine) :=
    head (trace m) = Some (0%nat, OStartRet k0 EAGAIN None)
    ∧ ((0%nat, OSemWait) ∉ trace m)
    ∧ length (threads m) = 1%nat
    ∧ (call <$> (threads m !! 0%nat)) = Some None
    ∧ (RAttr 0%nat ∉ live m)
    ∧ live m = [RSem 0%nat] in
  leaks (after_failure cfg_linux) ∧ leaks (after_failure cfg_apple).
Proof.
  split; vm_compute; split_and!; try done.
  all: intros Hin;
    repeat (apply elem_of_cons in Hin as [Heq|Hin]; [discriminate Heq|]);
    by apply elem_of_nil in Hin.
Qed.

(** ** The rendezvous *)








(** ** The current task *)

Lemma alter_keeps_current_task
    (f : thread → thread) (i c : nat) (l : list thread) (v : Z) :
  (∃ y, l !! c = Some y ∧ tinygo_task_current y = v) →
  (i ≠ c ∨ ∀ y, tinygo_task_current (f y) = tinygo_task_current y) →
  ∃ y, alter f i l !! c = Some y ∧ tinygo_task_current y = v.
Proof.
  intros (y & Hy & Hv) Hf. destruct (decide (i = c)) as [->|Hne].
  - destruct Hf as [?|Hf]; [done|]. exists (f y).
    rewrite list_lookup_alter_eq, Hy. split; [done|]. by rewrite Hf.
  - exists y. by rewrite list_lookup_alter_ne.
Qed.

(** The [__thread] variable of a thread is written by that thread only. *)
Lemma step_keeps_other_current_task
    (cfg : config) (t c : tid) (cth : thread) (m m' : machine) :
  step cfg t m = Some m' → t ≠ c → threads m !! c = Some cth →
  ∃ cth', threads m' !! c = Some cth'
          ∧ tinygo_task_current cth' = tinygo_task_current cth.
Proof.
  intros Hstep Hne Hc. pose proof (lookup_lt_Some _ _ _ Hc) as Hlt.
  step_cases Hstep th Ht; simpl;
    rewrite ?lookup_app_l by (rewrite ?length_alter; lia);
    repeat (apply alter_keeps_current_task; [|by (left + right)]);
    eauto.
Qed.

(** C2: on a thread made by [tinygo_task_start], from the binding on and
    so all through its entry function, [tinygo_task_current] gives the
    handle that was passed to that call, and every answer it has given
    is that handle.  So the answer is not null, the handle of a task
    being not null (spec section 3), and it is not the handle that
    another thread was started with, each task having a handle of its
    own; and no step of another thread changes the cell. *)
Theorem current_is_the_handle_passed_to_start
    (cfg : config) (m : machine) (c p : tid) (cth : thread) (k : start_args) :
  reachable cfg m →
  threads m !! c = Some cth → origin_of cth = Spawned p k →
  (rank WBind < rank (t_pc cth))%nat →
  tinygo_task_current cth = a_task k
  ∧ (∀ v, (c, OCurrent v) ∈ trace m → v = a_task k)
  ∧ (a_task k ≠ NULL → tinygo_task_current cth ≠ NULL)
  ∧ (∀ c' cth' p' k', threads m !! c' = Some cth' →
       origin_of cth' = Spawned p' k' → a_task k' ≠ a_task k →
       tinygo_task_current cth ≠ a_task k')
  ∧ (∀ t m', t ≠ c → step cfg t m = Some m' →
       ∃ cth', threads m' !! c = Some cth'
               ∧ tinygo_task_current cth' = a_task k).
Proof.
  intros Hr Hc Ho Hrank. pose proof (inv_reachable _ _ Hr) as Hinv.
  assert (tinygo_task_current cth = a_task k) as Hcur.
  { destruct (inv_local _ _ Hinv _ _ Hc) as [_ Hl]. rewrite Ho in Hl.
    destruct Hl as (_ & _ & _ & Hcur & _). simpl in Hrank.
    unfold tinygo_task_current. rewrite Hcur.
    rewrite bool_decide_eq_false_2; [done|lia]. }
  split_and!; try done.
  - intros v Hin. pose proof (inv_answers _ _ Hinv _ _ _ Hin Hc) as Ha.
    by rewrite Ho in Ha.
  - by rewrite Hcur.
  - intros c' cth' p' k' _ _ Hne. by rewrite Hcur.
  - intros t m' Hne Hstep.
    destruct (step_keeps_other_current_task _ _ _ _ _ _ Hstep Hne Hc)
      as (cth' & ? & ?).
    exists cth'. split; [done|congruence].
Qed.

Lemma current_is_the_handle_passed_to_start_witness :
  let m := run cfg_linux (replicate 12 0 ++ replicate 6 1)%nat
             (boot ia0 [UStart k0] [] []) in
  reachable cfg_linux m
  ∧ (t_pc <$> (threads m !! 1%nat)) = Some Running
  ∧ (tinygo_task_current <$> (threads m !! 1%nat)) = Some 55.
Proof.
  intros m.
  assert (reachable cfg_linux m) as Hr by apply reachable_run, reachable_boot.
  split; [exact Hr|]. split; [by vm_compute|].
  destruct (threads m !! 1%nat) as [cth|] eqn:Hc; [|by vm_compute in Hc].
  destruct (current_is_the_handle_passed_to_start cfg_linux m 1%nat 0%nat cth k0
              Hr Hc) as [H _].
  - vm_compute in Hc. by injection Hc as <-.
  - vm_compute in Hc. injection Hc as <-. vm_compute. lia.
  - simpl. by rewrite H.
Defined.

(** C4: on a thread on which no task was ever bound (a thread that this
    file did not start, the main thread before [tinygo_task_init], a
    started thread before its binding) [tinygo_task_current] gives the
    null pointer, the one value by which a [void*] result tells of an
    error, and not something left over; whatever a foreign thread was
    answered so far was null. *)
Theorem current_is_null_when_unbound
    (cfg : config) (m : machine) (t : tid) (th : thread) :
  reachable cfg m → threads m !! t = Some th → unbound th = true →
  tinygo_task_current th = NULL
  ∧ (origin_of th = Foreign → ∀ v, (t, OCurrent v) ∈ trace m → v = NULL).
Proof.
  intros Hr Ht Hu. pose proof (inv_reachable _ _ Hr) as Hinv.
  destruct (inv_local _ _ Hinv _ _ Ht) as [_ Hl].
  split.
  - unfold unbound in Hu. unfold tinygo_task_current.
    destruct (origin_of th).
    + destruct Hl as [_ ->]. by rewrite Hu.
    + tauto.
    + destruct Hl as (_ & _ & _ & -> & _).
      apply bool_decide_eq_true in Hu. simpl in Hu.
      by rewrite bool_decide_eq_true_2.
  - intros Ho v Hin. pose proof (inv_answers _ _ Hinv _ _ _ Hin Ht) as Ha.
    by rewrite Ho in Ha.
Qed.

Lemma current_is_null_when_unbound_witness :
  let m := run cfg_linux [0; 0; 0; 0; 1]%nat
             (boot ia0 [] [[UCurrent; UCurrent]] []) in
  reachable cfg_linux m
  ∧ (unbound <$> (threads m !! 1%nat)) = Some true
  ∧ (1%nat, OCurrent NULL) ∈ trace m
  ∧ (tinygo_task_current <$> (threads m !! 1%nat)) = Some NULL.
Proof.
  intros m.
  assert (reachable cfg_linux m) as Hr by apply reachable_run, reachable_boot.
  split; [exact Hr|]. split; [by vm_compute|].
  split; [vm_compute; apply elem_of_cons; by left|].
  destruct (threads m !! 1%nat) as [th|] eqn:Ht; [|by vm_compute in Ht].
  destruct (current_is_null_when_unbound cfg_linux m 1%nat th Hr Ht) as [H _].
  - vm_compute in Ht. by injection Ht as <-.
  - simpl. by rewrite H.
Defined.

(** ** Reuse of the record after the rendezvous *)

Lemma upd_upd_ne (t p : tid) (f g : thread → thread) (m : machine) :
  t ≠ p → upd t f (upd p g m) = upd p g (upd t f m).
Proof. intros Hne. unfold upd; simpl. f_equal. by apply list_alter_alter_ne. Qed.

Lemma lookup_overwrite_ne (p : tid) (r : state_pass) (m : machine) (t : tid) :
  t ≠ p → threads (overwrite p r m) !! t = threads m !! t.
Proof. intros Hne. simpl. by apply list_lookup_alter_ne. Qed.

Lemma thread_alive_overwrite (p : tid) (r : state_pass) (m : machine) (thr : Z) :
  thread_alive (overwrite p r m) thr = thread_alive m thr.
Proof.
  unfold thread_alive. f_equal. simpl.
  destruct (decide (p = Z.to_nat thr)) as [->|Hne].
  - rewrite list_lookup_alter_eq. by destruct (threads m !! Z.to_nat thr).
  - by rewrite list_lookup_alter_ne.
Qed.

(** A thread other than [p] that is not reading the record of [p] moves
    in the same way whatever that record holds. *)
Lemma step_overwrite (cfg : config) (t p : tid) (r : state_pass) (m : machine) :
  t ≠ p → (p < length (threads m))%nat →
  (∀ th, threads m !! t = Some th → w_state th = p → pre_post (t_pc th) = false) →
  step cfg t (overwrite p r m) = overwrite p r <$> step cfg t m.
Proof.
  intros Hne Hlt Hoff. unfold step. simpl trapped.
  destruct (trapped m); [done|].
  rewrite lookup_overwrite_ne by done.
  destruct (threads m !! t) as [th|] eqn:Ht; [|done]. simpl.
  specialize (Hoff th eq_refl).
  unfold step_thread.
  destruct (t_pc th) eqn:Hpc; simpl in Hoff;
    try (rewrite lookup_overwrite_ne by (intros E; by specialize (Hoff E)));
    try done.
  all: repeat match goal with
       | |- context [match origin_of ?x with _ => _ end] => destruct (origin_of x)
       | |- context [threads ?m0 !! w_state ?x] =>
           destruct (threads m0 !! w_state x); simpl
       | |- context [match call ?x with _ => _ end] => destruct (call x) as [sc|]
       | |- context [match todo ?x with _ => _ end] => destruct (todo x) as [|[]]
       | |- context [step_start] => unfold step_start
       | |- context [match s_pc ?sc with _ => _ end] =>
           destruct sc as [[] ?k ?res ?ch]; simpl
       | |- context [decide ?P] => destruct (decide P)
       | |- context [match startlock ?s with _ => _ end] => destruct (startlock s)
       end; simpl; try done.
  all: unfold step_user, tinygo_task_send_gc_signal, pthread_kill;
       unfold overwrite in *;
       rewrite <- ?(upd_upd_ne p t) by done;
       change (upd p (set_state r) ?x) with (overwrite p r x);
       rewrite ?thread_alive_overwrite;
       try match goal with
       | |- context [thread_alive ?m0 ?x] => destruct (thread_alive m0 x)
       end.
  all: unfold overwrite, upd, emit, store, sigaction, acquire, release, spawn,
         next_create, deliver; simpl;
       rewrite ?length_alter;
       rewrite ?(list_alter_alter_ne _ (set_state r) _ _ p)
         by (done || (intros E; by specialize (Hoff E)));
       rewrite ?alter_app_l by (rewrite ?length_alter; lia);
       try done.
Qed.

Lemma step_pre_post (cfg : config) (t : tid) (m m' : machine) (x : tid)
    (xth' : thread) :
  step cfg t m = Some m' → threads m' !! x = Some xth' →
  pre_post (t_pc xth') = true →
  (x = length (threads m) ∧ w_state xth' = t)
  ∨ ∃ xth, threads m !! x = Some xth ∧ w_state xth = w_state xth'
           ∧ pre_post (t_pc xth) = true.
Proof.
  intros Hstep Hx Hpre. step_cases Hstep th Ht; simpl in Hx; inv_lookup;
    simpl in *; rewrite ?length_alter; try done; eauto;
    right; eexists; (split; [done|]); split; try done;
    by repeat match goal with H : t_pc _ = _ |- _ => rewrite H end.
Qed.

Lemma handed_off_step (cfg : config) (t p : tid) (m m' : machine) :
  t ≠ p → handed_off p m → step cfg t m = Some m' → handed_off p m'.
Proof.
  intros Hne [Hlt Hoff] Hstep. split.
  - pose proof (step_length _ _ _ _ Hstep). lia.
  - intros x xth' Hx Hw. destruct (pre_post (t_pc xth')) eqn:Hpre; [|done].
    destruct (step_pre_post _ _ _ _ _ _ Hstep Hx Hpre)
      as [[_ ?]|(xth & Hx0 & Hw0 & Hpre0)]; [congruence|].
    rewrite <- Hpre0. apply (Hoff x xth Hx0). congruence.
Qed.

Lemma handed_off_overwrite (p : tid) (r : state_pass) (m : machine) :
  handed_off p m → handed_off p (overwrite p r m).
Proof.
  intros [Hlt Hoff]. split; [simpl; by rewrite length_alter|].
  intros x xth' Hx Hw. simpl in Hx.
  apply alter_lookup_inv in Hx as [(-> & xth & Hx & ->)|[_ Hx]];
    [apply (Hoff _ _ Hx Hw)|apply (Hoff _ _ Hx Hw)].
Qed.

Lemma forget_overwrite (p : tid) (r : state_pass) (m : machine) :
  forget p (overwrite p r m) = forget p m.
Proof.
  unfold forget, overwrite, upd; simpl. f_equal.
  rewrite list_alter_alter_eq. by apply list_alter_ext.
Qed.

Lemma overwrite_own_state (p : tid) (pth : thread) (m : machine) :
  threads m !! p = Some pth → overwrite p (state pth) (forget p m) = m.
Proof.
  intros Hp. unfold forget, overwrite, upd; simpl. destruct m as [ths ? ? ? ? ? ? ?].
  simpl in *. f_equal. rewrite list_alter_alter_eq.
  apply list_eq. intros i. destruct (decide (i = p)) as [->|Hne].
  - rewrite list_lookup_alter_eq, Hp. simpl. by destruct pth.
  - by rewrite list_lookup_alter_ne.
Qed.

(** One turn of a thread other than [p] sees nothing of the record of
    [p] once it is handed off. *)
Lemma turn_forget (cfg : config) (t p : tid) (m : machine) :
  t ≠ p → handed_off p m →
  forget p (default m (step cfg t m))
  = forget p (default (forget p m) (step cfg t (forget p m))).
Proof.
  intros Hne Hoff.
  destruct (lookup_lt_is_Some_2 _ _ (proj1 Hoff)) as [pth Hp].
  pose proof (handed_off_overwrite p (StatePass 0 0 0 0 0) m Hoff) as [Hlt' Hoff'].
  fold (forget p m) in Hlt', Hoff'.
  rewrite <- (overwrite_own_state p pth m Hp) at 1 2.
  rewrite step_overwrite; [|done|done|by intros th Ht; apply (Hoff' t th Ht)].
  destruct (step cfg t (forget p m)); simpl; by rewrite forget_overwrite.
Qed.

Lemma handed_off_turn (cfg : config) (t p : tid) (m : machine) :
  t ≠ p → handed_off p m → handed_off p (default m (step cfg t m)).
Proof.
  intros Hne Hoff. destruct (step cfg t m) eqn:Hs; simpl; [|done].
  by eapply handed_off_step.
Qed.

Lemma run_forget (cfg : config) (p : tid) (sched : list tid) (m : machine) :
  p ∉ sched → handed_off p m →
  forget p (run cfg sched m) = forget p (run cfg sched (forget p m)).
Proof.
  revert m. induction sched as [|t sched IH]; intros m Hp Hoff; simpl.
  - exact (eq_sym (forget_overwrite p (StatePass 0 0 0 0 0) m)).
  - apply not_elem_of_cons in Hp as [Hne Hp].
    rewrite IH; [|done|by apply handed_off_turn].
    rewrite (IH (default (forget p m) _));
      [|done|by apply handed_off_turn, handed_off_overwrite].
    f_equal. f_equal. by apply turn_forget.
Qed.

Lemma exec_forget (cfg : config) (p : tid) (acts : list action) (m : machine) :
  p ∉ turns acts → handed_off p m →
  forget p (exec cfg p acts m) = forget p (run cfg (turns acts) (forget p m)).
Proof.
  revert m. induction acts as [|[t|r] acts IH]; intros m Hp Hoff; simpl.
  - exact (eq_sym (forget_overwrite p (StatePass 0 0 0 0 0) m)).
  - simpl in Hp. apply not_elem_of_cons in Hp as [Hne Hp].
    fold (exec cfg p acts (default m (step cfg t m))).
    rewrite IH; [|done|by apply handed_off_turn].
    fold (run cfg (turns acts) (default (forget p m) (step cfg t (forget p m)))).
    rewrite <- (run_forget cfg p (turns acts) (default m _));
      [|done|by apply handed_off_turn].
    rewrite (run_forget cfg p (turns acts) (default (forget p m) _));
      [|done|by apply handed_off_turn, handed_off_overwrite].
    rewrite (run_forget cfg p (turns acts) (default m _));
      [|done|by apply handed_off_turn].
    f_equal. f_equal. by apply turn_forget.
  - fold (exec cfg p acts (overwrite p r m)).
    rewrite IH; [|done|by apply handed_off_overwrite].
    by rewrite forget_overwrite.
Qed.

(** In a reachable machine the record of [p] is handed off as soon as
    [tinygo_task_start] has returned on [p], and already when the thread
    that the running call made has signalled. *)
Lemma handed_off_reachable (cfg : config) (m : machine) (p : tid) (pth : thread) :
  reachable cfg m → threads m !! p = Some pth →
  (call pth = None
   ∨ ∃ sc c cth, call pth = Some sc ∧ s_child sc = Some c
                 ∧ threads m !! c = Some cth ∧ pre_post (t_pc cth) = false) →
  handed_off p m.
Proof.
  intros Hr Hp Hcall. pose proof (inv_reachable _ _ Hr) as Hinv.
  split; [by eapply lookup_lt_Some|].
  intros t th Ht Hw. destruct (pre_post (t_pc th)) eqn:Hpre; [|done].
  destruct (inv_local _ _ Hinv _ _ Ht) as [_ Hl].
  destruct (origin_of th) as [ia| |p' k] eqn:Ho.
  - destruct Hl as [Hl _]. by destruct (t_pc th).
  - destruct Hl as [Hl _]. by destruct (t_pc th).
  - destruct Hl as (Hw' & _). assert (p' = p) as -> by congruence.
    destruct (inv_pair _ _ Hinv _ _ _ _ Ht Hp) as [Hchild _].
    destruct (Hchild k Ho Hpre) as (sc & Hsc & _ & Hch & _).
    destruct Hcall as [Hnone|(sc' & c & cth & Hsc' & Hch' & Hc & Hsig)];
      [congruence|].
    assert (sc' = sc) as -> by congruence.
    assert (c = t) as -> by congruence.
    assert (cth = th) as -> by congruence. congruence.
Qed.

(** *** Reuse between two calls, the spawner running as well *)

Lemma record_free_not_awaiting (pth : thread) (sc : scall) :
  record_in_use pth = false → call pth = Some sc →
  awaiting sc = false ∧ prepared sc = false ∧ finishing sc = false
  ∧ s_pc sc ≠ SSemInit ∧ s_pc sc ≠ SWait.
Proof.
  unfold record_in_use, awaiting, prepared, finishing. intros H Hc.
  rewrite Hc in H. by destruct (s_pc sc).
Qed.

(** The invariants say nothing of a record that is free. *)
Lemma inv_overwrite (cfg : config) (p : tid) (r : state_pass) (m : machine) :
  inv cfg m → record_free p m → inv cfg (overwrite p r m).
Proof.
  intros Hinv (pth & Hp & Hfree). split.
  - intros c th Hc. simpl in Hc.
    apply alter_lookup_inv in Hc as [(-> & x & Hx & ->)|[_ Hc]].
    + change (local_ok cfg (trace m) p x). by apply (inv_local _ _ Hinv).
    + by apply (inv_local _ _ Hinv).
  - intros x xth sc Hx Hsc. simpl. rewrite length_alter. simpl in Hx.
    apply alter_lookup_inv in Hx as [(-> & x0 & Hx & ->)|[_ Hx]];
      [|by eapply (inv_call _ _ Hinv)].
    simpl in Hsc. assert (x0 = pth) as -> by congruence.
    destruct (record_free_not_awaiting _ _ Hfree Hsc) as (Ha & Hpr & Hf & H1 & H2).
    destruct (inv_call _ _ Hinv _ _ _ Hx Hsc) as (_ & _ & ? & ? & ? & ? & ?).
    unfold call_ok. rewrite Hpr. split_and!; try done.
  - intros c cth x xth Hc Hx. simpl in Hc, Hx.
    assert (∃ cth0, threads m !! c = Some cth0 ∧ origin_of cth0 = origin_of cth
                    ∧ t_pc cth0 = t_pc cth) as (cth0 & Hc0 & Ho & Hpc).
    { apply alter_lookup_inv in Hc as [(-> & y & Hy & ->)|[_ Hc]]; eauto. }
    apply alter_lookup_inv in Hx as [(-> & x0 & Hx & ->)|[_ Hx]].
    + assert (x0 = pth) as -> by congruence.
      destruct (inv_pair _ _ Hinv _ _ _ _ Hc0 Hp) as [H1 H2].
      rewrite Ho, Hpc in H1, H2. split.
      * intros k Hk Hpre. destruct (H1 k Hk Hpre) as (sc & Hsc & Ha & _).
        destruct (record_free_not_awaiting _ _ Hfree Hsc) as (Ha' & _).
        congruence.
      * intros sc Hsc Hch. simpl in Hsc.
        destruct (record_free_not_awaiting _ _ Hfree Hsc) as (Ha' & _).
        destruct (H2 sc Hsc Hch) as (? & _ & ?). rewrite Ha'.
        split_and!; done.
    + eapply pair_ok_ext; [exact (eq_sym Ho)|by rewrite Hpc|done|done|].
      by apply (inv_pair _ _ Hinv).
  - intros c o Hin. simpl. rewrite length_alter. by apply (inv_events _ _ Hinv _ o).
  - intros c v cth Hin Hc. simpl in Hin, Hc.
    apply alter_lookup_inv in Hc as [(-> & y & Hy & ->)|[_ Hc]].
    + exact (inv_answers _ _ Hinv _ _ _ Hin Hy).
    + exact (inv_answers _ _ Hinv _ _ _ Hin Hc).
  - exact (inv_trace _ _ Hinv).
Qed.

(** While the record of [p] is free no thread is about to read it. *)
Lemma record_free_handed_off (cfg : config) (p : tid) (m : machine) :
  inv cfg m → record_free p m → handed_off p m.
Proof.
  intros Hinv (pth & Hp & Hfree). split; [by eapply lookup_lt_Some|].
  intros t th Ht Hw. destruct (pre_post (t_pc th)) eqn:Hpre; [|done].
  destruct (inv_local _ _ Hinv _ _ Ht) as [_ Hl].
  destruct (origin_of th) as [ia| |p' k] eqn:Ho.
  - destruct Hl as [Hl _]. by destruct (t_pc th).
  - destruct Hl as [Hl _]. by destruct (t_pc th).
  - destruct Hl as (Hw' & _). assert (p' = p) as -> by congruence.
    destruct (inv_pair _ _ Hinv _ _ _ _ Ht Hp) as [Hchild _].
    destruct (Hchild k Ho Hpre) as (sc & Hsc & Ha & _).
    destruct (record_free_not_awaiting _ _ Hfree Hsc) as (Ha' & _). congruence.
Qed.

Lemma alter_alter_same (f g : thread → thread) (i : nat) (l : list thread) :
  (∀ x, f (g x) = g (f x)) → alter f i (alter g i l) = alter g i (alter f i l).
Proof.
  intros Hfg. rewrite !list_alter_alter_eq. apply list_alter_ext; [|done].
  intros x _. simpl. apply Hfg.
Qed.

(** The spawner itself, as long as its record is free and it is not at
    the statement that fills the record, moves in the same way whatever
    the record holds. *)
Lemma step_self_overwrite
    (cfg : config) (p : tid) (pth : thread) (r : state_pass) (m : machine) :
  threads m !! p = Some pth → record_in_use pth = false →
  (pre_post (t_pc pth) = true → w_state pth ≠ p) →
  (∀ sc, call pth = Some sc → s_pc sc ≠ SState) →
  step cfg p (overwrite p r m) = overwrite p r <$> step cfg p m.
Proof.
  intros Hp Hfree Hw Hfill. pose proof (lookup_lt_Some _ _ _ Hp) as Hlt.
  unfold step. simpl trapped. destruct (trapped m); [done|].
  simpl threads. rewrite list_lookup_alter_eq, Hp. simpl.
  unfold step_thread, record_in_use in *. simpl.
  destruct (t_pc pth) eqn:Hpc; simpl in Hw;
    try (rewrite list_lookup_alter_ne by (by apply not_eq_sym, Hw));
    try done.
  all: repeat match goal with
       | |- context [match origin_of ?x with _ => _ end] => destruct (origin_of x)
       | |- context [threads ?m0 !! w_state ?x] =>
           destruct (threads m0 !! w_state x); simpl
       | |- context [match call ?x with _ => _ end] =>
           destruct (call x) as [sc|] eqn:?
       | |- context [match todo ?x with _ => _ end] => destruct (todo x) as [|[]]
       | |- context [step_start] => unfold step_start
       | |- context [match s_pc ?sc with _ => _ end] =>
           destruct sc as [[] ?k ?res ?ch]; simpl in *
       | |- context [decide ?P] => destruct (decide P)
       end; simpl; try done;
       try (by exfalso; eapply Hfill).
  all: unfold step_user, tinygo_task_send_gc_signal, pthread_kill;
       unfold overwrite in *;
       try (match goal with
            | |- context [thread_alive (upd ?t ?f (upd ?q (set_state ?r0) ?m0)) ?x] =>
                replace (upd t f (upd q (set_state r0) m0))
                  with (overwrite q r0 (upd t f m0))
                  by (unfold overwrite, upd; simpl; f_equal;
                      by apply alter_alter_same);
                rewrite thread_alive_overwrite;
                destruct (thread_alive (upd t f m0) x)
            end).
  all: unfold overwrite, upd, emit, store, sigaction, acquire, release, spawn,
         next_create, deliver, trap; simpl;
       rewrite ?length_alter;
       repeat first
         [ rewrite (alter_alter_same _ (set_state r) p) by done
         | rewrite (list_alter_alter_ne _ (set_state r) _ _ p)
             by (by apply Hw) ];
       rewrite ?alter_app_l by (rewrite ?length_alter; lia);
       try done.
Qed.

(** The statement that fills the record wipes out what was there. *)
Lemma step_fill_overwrite
    (cfg : config) (p : tid) (pth : thread) (sc : scall) (r : state_pass)
    (m : machine) :
  threads m !! p = Some pth → t_pc pth = Running →
  call pth = Some sc → s_pc sc = SState →
  step cfg p (overwrite p r m) = step cfg p m.
Proof.
  intros Hp Hpc Hsc Hspc. unfold step. simpl trapped.
  destruct (trapped m); [done|].
  simpl threads. rewrite list_lookup_alter_eq, Hp. simpl.
  unfold step_thread. simpl. rewrite Hpc, Hsc. unfold step_start.
  rewrite Hspc. unfold overwrite, upd, emit; simpl. do 2 f_equal.
  rewrite !list_alter_alter_eq. by apply list_alter_ext.
Qed.

Lemma alter_keeps_call
    (f : thread → thread) (i c : nat) (l : list thread) (v : option scall) :
  (∃ y, l !! c = Some y ∧ call y = v) →
  (i ≠ c ∨ ∀ y, call (f y) = call y) →
  ∃ y, alter f i l !! c = Some y ∧ call y = v.
Proof.
  intros (y & Hy & Hv) Hf. destruct (decide (i = c)) as [->|Hne].
  - destruct Hf as [?|Hf]; [done|]. exists (f y).
    rewrite list_lookup_alter_eq, Hy. split; [done|]. by rewrite Hf.
  - exists y. by rewrite list_lookup_alter_ne.
Qed.

(** The activation of [tinygo_task_start] on a thread is moved by that
    thread only. *)
Lemma step_keeps_other_call
    (cfg : config) (t p : tid) (pth : thread) (m m' : machine) :
  step cfg t m = Some m' → t ≠ p → threads m !! p = Some pth →
  ∃ pth', threads m' !! p = Some pth' ∧ call pth' = call pth.
Proof.
  intros Hstep Hne Hp. pose proof (lookup_lt_Some _ _ _ Hp) as Hlt.
  step_cases Hstep th Ht; simpl;
    rewrite ?lookup_app_l by (rewrite ?length_alter; lia);
    repeat (apply alter_keeps_call; [|by (left + right)]);
    eauto.
Qed.

Lemma record_free_step (cfg : config) (t p : tid) (m m' : machine) :
  t ≠ p → record_free p m → step cfg t m = Some m' → record_free p m'.
Proof.
  intros Hne (pth & Hp & Hfree) Hstep.
  destruct (step_keeps_other_call _ _ _ _ _ _ Hstep Hne Hp) as (pth' & Hp' & Hc).
  exists pth'. split; [done|]. unfold record_in_use in *. by rewrite Hc.
Qed.

(** A step of the spawner itself leaves the record free, the step that
    fills it apart. *)
Lemma record_free_self (cfg : config) (p : tid) (pth : thread) (m m' : machine) :
  threads m !! p = Some pth → record_in_use pth = false →
  (∀ sc, call pth = Some sc → s_pc sc ≠ SState) →
  step cfg p m = Some m' → record_free p m'.
Proof.
  intros Hp Hfree Hfill Hstep. unfold record_free, record_in_use in *.
  step_cases Hstep th Ht; simplify_eq/=;
    repeat match goal with
    | H : call ?x = _ |- _ => rewrite H in *
    end; simpl in *; try done;
    try (by exfalso; eapply Hfill);
    rewrite ?lookup_app_l by (rewrite ?length_alter; lia);
    repeat match goal with
    | |- context [alter ?f ?i ?l !! ?j] =>
        first [ rewrite (list_lookup_alter_eq f l j)
              | destruct (decide (i = j)) as [->|?];
                [ rewrite (list_lookup_alter_eq f l j)
                | rewrite (list_lookup_alter_ne f l i j) by done ] ]
    end;
    rewrite ?Ht; simpl; eexists; (split; [done|]); simpl;
    by repeat match goal with
       | H : call ?x = _ |- _ => rewrite H
       end.
Qed.

Lemma record_free_overwrite (p : tid) (r : state_pass) (m : machine) :
  record_free p m → record_free p (overwrite p r m).
Proof.
  intros (pth & Hp & Hfree). exists (set_state r pth). split; [|done].
  simpl. by rewrite list_lookup_alter_eq, Hp.
Qed.

Lemma overwrite_overwrite (p : tid) (r r' : state_pass) (m : machine) :
  overwrite p r' (overwrite p r m) = overwrite p r' m.
Proof.
  unfold overwrite, upd; simpl. f_equal.
  rewrite list_alter_alter_eq. by apply list_alter_ext.
Qed.

Lemma scribbled_forget (p : tid) (m1 m0 : machine) :
  scribbled p m1 m0 → forget p m1 = forget p m0.
Proof. intros [->|(_ & r & ->)]; [done|apply forget_overwrite]. Qed.

Lemma scribbled_turn (cfg : config) (p t : tid) (m1 m0 : machine) :
  inv cfg m0 → scribbled p m1 m0 →
  scribbled p (default m1 (step cfg t m1)) (default m0 (step cfg t m0)).
Proof.
  intros Hinv [->|(Hfree & r & ->)]; [by left|].
  pose proof (record_free_handed_off _ _ _ Hinv Hfree) as [Hlt Hoff].
  destruct (decide (t = p)) as [->|Hne].
  - destruct Hfree as (pth & Hp & Hfree).
    destruct (inv_local _ _ Hinv _ _ Hp) as [Hrun Hl].
    destruct (call pth) as [sc|] eqn:Hsc.
    + destruct (decide (s_pc sc = SState)) as [Hfill|Hfill].
      * rewrite (step_fill_overwrite cfg p pth sc r m0); eauto.
        destruct (step cfg p m0); simpl; [by left|].
        right. split; [by exists pth|by exists r].
      * rewrite (step_self_overwrite cfg p pth r m0); try done.
        -- destruct (step cfg p m0) as [m0'|] eqn:Hs; simpl.
           ++ right. split; [|by exists r].
              eapply record_free_self; try done. congruence.
           ++ right. split; [by exists pth|by exists r].
        -- rewrite Hrun by eauto. done.
        -- congruence.
    + rewrite (step_self_overwrite cfg p pth r m0); try done.
      * destruct (step cfg p m0) as [m0'|] eqn:Hs; simpl.
        -- right. split; [|by exists r].
           eapply record_free_self; try done. congruence.
        -- right. split; [by exists pth|by exists r].
      * intros Hpre Hw. destruct (origin_of pth).
        -- destruct Hl as [Hl _]. by destruct (t_pc pth).
        -- destruct Hl as [Hl _]. by destruct (t_pc pth).
        -- destruct Hl as (? & ? & _). lia.
      * congruence.
  - rewrite step_overwrite; [|done|done|by intros th Ht; apply (Hoff t th Ht)].
    destruct (step cfg t m0) as [m0'|] eqn:Hs; simpl.
    + right. split; [by eapply record_free_step|by exists r].
    + right. split; [done|by exists r].
Qed.

(** A course that is polite leaves the same machine, the record of [p]
    apart, as its turns alone. *)
Lemma polite_exec (cfg : config) (p : tid) (acts : list action)
    (m1 m0 : machine) :
  inv cfg m0 → scribbled p m1 m0 → polite cfg p acts m1 →
  forget p (exec cfg p acts m1) = forget p (run cfg (turns acts) m0).
Proof.
  revert m1 m0. induction acts as [|[t|r'] acts IH]; intros m1 m0 Hinv Hsc Hpol.
  - by apply scribbled_forget.
  - simpl. fold (exec cfg p acts (default m1 (step cfg t m1))).
    apply IH.
    + destruct (step cfg t m0) eqn:Hs; simpl; [by eapply inv_step|done].
    + by apply scribbled_turn.
    + exact Hpol.
  - simpl in *. fold (exec cfg p acts (overwrite p r' m1)).
    destruct Hpol as [[Hfree|[Hoff Hnp]] Hpol].
    + apply IH; [done| |done]. right.
      destruct Hsc as [->|(Hfree0 & r & ->)]; [split; [done|by exists r']|].
      split; [done|]. exists r'. apply overwrite_overwrite.
    + rewrite exec_forget; [|done|by apply handed_off_overwrite].
      rewrite forget_overwrite, (scribbled_forget _ _ _ Hsc).
      symmetry. apply run_forget; [done|].
      destruct Hsc as [->|(Hfree0 & _)]; [done|].
      by eapply record_free_handed_off.
Qed.

(** A course in which [p] takes no turn is polite once the record of [p]
    is handed off. *)
Lemma polite_frozen (cfg : config) (p : tid) (acts : list action) (m : machine) :
  handed_off p m → p ∉ turns acts → polite cfg p acts m.
Proof.
  revert m. induction acts as [|[t|r] acts IH]; intros m Hoff Hnp; [done| |].
  - simpl in *. apply not_elem_of_cons in Hnp as [Hne Hnp].
    apply IH; [by apply handed_off_turn|done].
  - simpl in *. split; [by right|]. apply IH; [by apply handed_off_overwrite|done].
Qed.

(** So every course in which [p] stands still is polite from the return
    of [tinygo_task_start] on [p] on, and already from the signal of the
    thread that the running call made. *)
Lemma polite_after_signal
    (cfg : config) (m : machine) (p : tid) (pth : thread) (acts : list action) :
  reachable cfg m → threads m !! p = Some pth →
  (call pth = None
   ∨ ∃ sc c cth, call pth = Some sc ∧ s_child sc = Some c
                 ∧ threads m !! c = Some cth ∧ pre_post (t_pc cth) = false) →
  p ∉ turns acts → polite cfg p acts m.
Proof.
  intros Hr Hp Hcall Hnp. apply polite_frozen; [|done].
  by eapply handed_off_reachable.
Qed.

(** No thread is its own spawner. *)
Lemma spawned_by_other (cfg : config) (p c : tid) (m1 m0 : machine)
    (cth : thread) (k : start_args) :
  inv cfg m0 → forget p m1 = forget p m0 →
  threads m1 !! c = Some cth → origin_of cth = Spawned p k → c ≠ p.
Proof.
  intros Hinv Heq Hc Ho ->.
  assert (threads (forget p m1) !! p = Some (set_state (StatePass 0 0 0 0 0) cth))
    as Hf by (simpl; by rewrite list_lookup_alter_eq, Hc).
  rewrite Heq in Hf. simpl in Hf.
  apply alter_lookup_inv in Hf as [(_ & x & Hx & Hxc)|[? _]]; [|done].
  destruct (inv_local _ _ Hinv _ _ Hx) as [_ Hl].
  assert (origin_of x = Spawned p k) as Hox.
  { rewrite <- Ho. by apply (f_equal origin_of) in Hxc. }
  rewrite Hox in Hl. destruct Hl as (_ & ? & _). lia.
Qed.

(** C9: take a reachable machine and two courses from it with the same
    turns of the same threads, the spawner [p] among them, in which the
    memory of the record of [p] is written over at will: at any time
    when no call of [tinygo_task_start] on [p] holds the record, and
    also between the signal of the started thread and the return of the
    call if [p] then stands still.  The two courses end in machines that
    differ in nothing but that record: same trace of events, same memory
    of the runtime, same pending signals, the same state of every thread
    other than [p], and so the same state of every thread that [p]
    started before or on the way. *)
Theorem record_reuse_is_invisible
    (cfg : config) (m : machine) (p : tid) (acts1 acts2 : list action) :
  reachable cfg m →
  polite cfg p acts1 m → polite cfg p acts2 m →
  turns acts1 = turns acts2 →
  let m1 := exec cfg p acts1 m in
  let m2 := exec cfg p acts2 m in
  forget p m1 = forget p m2
  ∧ trace m1 = trace m2 ∧ mem m1 = mem m2 ∧ pending m1 = pending m2
  ∧ (∀ c, c ≠ p → threads m1 !! c = threads m2 !! c)
  ∧ (∀ c cth k, threads m1 !! c = Some cth → origin_of cth = Spawned p k →
       threads m2 !! c = Some cth).
Proof.
  intros Hr Hpol1 Hpol2 Hturns m1 m2.
  pose proof (inv_reachable _ _ Hr) as Hinv.
  assert (forget p m1 = forget p (run cfg (turns acts1) m)) as Heq1.
  { apply polite_exec; [done|by left|done]. }
  assert (forget p m1 = forget p m2) as Heq.
  { rewrite Heq1, Hturns. symmetry. apply polite_exec; [done|by left|done]. }
  assert (∀ c, c ≠ p → threads m1 !! c = threads m2 !! c) as Hth.
  { intros c Hne.
    rewrite <- (lookup_overwrite_ne p (StatePass 0 0 0 0 0) m1 c Hne).
    rewrite <- (lookup_overwrite_ne p (StatePass 0 0 0 0 0) m2 c Hne).
    fold (forget p m1) (forget p m2). by rewrite Heq. }
  split_and!; try done.
  - by apply (f_equal trace) in Heq.
  - by apply (f_equal mem) in Heq.
  - by apply (f_equal pending) in Heq.
  - intros c cth k Hc Ho. rewrite <- Hth; [done|].
    eapply (spawned_by_other cfg p c m1); [|exact Heq1|done|done].
    by apply inv_run.
Qed.

Lemma record_reuse_is_invisible_witness :
  let junk := StatePass 1 2 3 4 5 in
  (let m := run cfg_linux (replicate 12 0 ++ replicate 5 1 ++ replicate 5 0)%nat
              (boot ia0 [UStart k0; UStart k1] [] []) in
   let acts1 := ([Scribble junk; Turn 1; Turn 0; Turn 0; Scribble junk]
                 ++ (Turn <$> replicate 6 0) ++ (Turn <$> replicate 5 2)
                 ++ (Turn <$> replicate 5 0) ++ [Scribble junk])%nat in
   let acts2 := ((Turn <$> 1 :: replicate 8 0) ++ (Turn <$> replicate 5 2)
                 ++ (Turn <$> replicate 5 0))%nat in
   let m1 := exec cfg_linux 0%nat acts1 m in
   let m2 := exec cfg_linux 0%nat acts2 m in
   (state <$> (threads m1 !! 0%nat)) ≠ (state <$> (threads m2 !! 0%nat))
   ∧ threads m1 !! 1%nat = threads m2 !! 1%nat
   ∧ threads m1 !! 2%nat = threads m2 !! 2%nat
   ∧ (loc_start <$> (threads m1 !! 2%nat)) = Some (a_fn k1)
   ∧ (t_pc <$> (threads m1 !! 2%nat)) = Some WCall
   ∧ trace m1 = trace m2)
  ∧ (let m := run cfg_linux (replicate 12 0 ++ replicate 5 1)%nat
                (boot ia0 [UStart k0] [] []) in
     let acts1 := [Scribble junk; Turn 1; Scribble junk; Turn 1]%nat in
     let acts2 := [Turn 1; Turn 1]%nat in
     let m1 := exec cfg_linux 0%nat acts1 m in
     let m2 := exec cfg_linux 0%nat acts2 m in
     (state <$> (threads m1 !! 0%nat)) ≠ (state <$> (threads m2 !! 0%nat))
     ∧ threads m1 !! 1%nat = threads m2 !! 1%nat
     ∧ (t_pc <$> (threads m1 !! 1%nat)) = Some Running
     ∧ trace m1 = trace m2).
Proof.
  intros junk. split.
  - intros m acts1 acts2 m1 m2.
    assert (reachable cfg_linux m) as Hr by apply reachable_run, reachable_boot.
    destruct (record_reuse_is_invisible cfg_linux m 0%nat acts1 acts2 Hr)
      as (_ & Htr & _ & _ & Hth & _).
    + vm_compute;
      repeat first [exact I | split | (left; eexists; split; reflexivity)].
    + vm_compute;
      repeat first [exact I | split | (left; eexists; split; reflexivity)].
    + reflexivity.
    + split; [by vm_compute|]. split; [by apply Hth|]. split; [by apply Hth|].
      split; [by vm_compute|]. split; [by vm_compute|exact Htr].
  - intros m acts1 acts2 m1 m2.
    assert (reachable cfg_linux m) as Hr by apply reachable_run, reachable_boot.
    assert (∀ acts, (0%nat ∉ turns acts) → polite cfg_linux 0%nat acts m) as Hpol.
    { intros acts. destruct (threads m !! 0%nat) as [pth|] eqn:Hp;
        [|by vm_compute in Hp].
      apply (polite_after_signal cfg_linux m 0%nat pth acts Hr Hp).
      right. vm_compute in Hp. injection Hp as <-.
      eexists _, 1%nat, _. split; [reflexivity|]. split; [reflexivity|].
      split; [by vm_compute|reflexivity]. }
    assert (0%nat ∉ [1; 1]%nat) as Hnp.
    { intros Hin. apply elem_of_cons in Hin as [?|Hin]; [done|].
      apply elem_of_cons in Hin as [?|Hin]; [done|]. by apply elem_of_nil in Hin. }
    destruct (record_reuse_is_invisible cfg_linux m 0%nat acts1 acts2 Hr)
      as (_ & Htr & _ & _ & Hth & _).
    + by apply Hpol.
    + by apply Hpol.
    + reflexivity.
    + split; [by vm_compute|]. split; [by apply Hth|].
      split; [by vm_compute|exact Htr].
Defined.

(* ===================================================================== *)
(** * Part IV: more properties of the code                                *)
(* ===================================================================== *)

(** ** The events of one thread *)

Lemma own_cons (x t : tid) (o : op) (tr : list event) :
  own x ((t, o) :: tr) = if decide (t = x) then o :: own x tr else own x tr.
Proof. unfold own. simpl. by destruct (decide (t = x)). Qed.

Lemma elem_of_own (x : tid) (o : op) (tr : list event) :
  o ∈ own x tr ↔ (x, o) ∈ tr.
Proof.
  unfold own. rewrite list_elem_of_omap. split.
  - intros ([t o'] & Hin & Hsome). simpl in Hsome.
    destruct (decide (t = x)); by simplify_eq.
  - intros Hin. exists (x, o). split; [done|]. simpl. by rewrite decide_True.
Qed.

Lemma own_unborn (n : tid) (tr : list event) :
  (∀ c o, (c, o) ∈ tr → (c < n)%nat) → own n tr = [].
Proof.
  intros H. destruct (own n tr) as [|o l] eqn:E; [done|].
  assert (o ∈ own n tr) as Hin by (rewrite E; apply elem_of_cons; by left).
  apply elem_of_own, H in Hin. lia.
Qed.

Lemma lookup_boot ia code foreign oracle x xth :
  threads (boot ia code foreign oracle) !! x = Some xth →
  call xth = None ∧ current_task xth = NULL ∧
  ((x = 0%nat ∧ origin_of xth = Main ia ∧ t_pc xth = IBind) ∨
   (x ≠ 0%nat ∧ origin_of xth = Foreign ∧ t_pc xth = Running)).
Proof.
  destruct x as [|x]; simpl.
  - intros [= <-]. simpl. split; [done|]. split; [done|]. by left.
  - rewrite list_lookup_fmap. intros (? & ? & ->)%fmap_Some. simpl.
    split; [done|]. split; [done|]. by right.
Qed.

(** ** The order of the statements *)

Lemma lifecycle_boot cfg ia code foreign oracle :
  lifecycle_ok cfg (boot ia code foreign oracle).
Proof.
  intros c cth Hc. exists []. split; [|done].
  destruct (lookup_boot _ _ _ _ _ _ Hc) as (_ & _ & [(_ & -> & ->)|(_ & -> & ->)]);
    done.
Qed.

Lemma lifecycle_step cfg t m m' :
  inv cfg m → lifecycle_ok cfg m → step cfg t m = Some m' → lifecycle_ok cfg m'.
Proof.
  intros Hinv IH Hstep c cth' Hc.
  pose proof (inv_events _ _ Hinv) as Hev.
  step_cases Hstep th Ht; simpl in Hc; inv_lookup; simpl;
    rewrite ?own_cons, ?length_alter;
    repeat match goal with
    | |- context [decide (?a = ?a)] => rewrite (decide_True (P := a = a)) by done
    | H : ?a ≠ ?b |- context [decide (?b = ?a)] =>
        rewrite (decide_False (P := b = a)) by done
    | H : ?a ≠ ?b |- context [decide (?a = ?b)] =>
        rewrite (decide_False (P := a = b)) by done
    end.
  all: try (by apply IH).
  all: try (by rewrite (own_unborn _ _ Hev); exists []).
  all: try (match goal with
       | |- context [decide (?a = ?b)] => destruct (decide (a = b)) as [->|?]
       end).
  all: try (by apply IH).
  all: try (pose proof (lookup_lt_Some _ _ _ Ht); lia).
  all: simplify_eq.
  all: gather Hinv;
       repeat match goal with
       | H : threads _ !! _ = Some ?x |- _ =>
           lazymatch goal with
           | _ : own _ _ = lifecycle _ _ (origin_of x) _ _ |- _ => fail
           | _ => destruct (IH _ _ H) as (? & ? & ?)
           end
       end.
  all: know_origin Ht.
  all: unfold_defs; use_eqs; simpl in *; destruct_and?; simplify_eq/=; fwd;
       repeat case_bool_decide; try lia; try done.
  all: repeat match goal with H : own _ _ = _ |- _ => rewrite H; clear H end;
       simpl.
  all: try (by exists []; split;
              [first [reflexivity|congruence|by apply own_unborn
                     |unfold wrapper_prologue; simpl; congruence]|done]).
  all: try (match goal with
       | H : forallb task_op ?x = true |- _ =>
           first [ exists x; split; [congruence|assumption]
                 | eexists (_ :: x); split; [reflexivity|simpl; assumption] ]
       end).
Qed.

Lemma lifecycle_reachable cfg m : reachable cfg m → lifecycle_ok cfg m.
Proof.
  revert m. apply reachable_ind; [apply lifecycle_boot|].
  intros t m m' Hr IH Hstep. eapply lifecycle_step; [|done..].
  by apply inv_reachable.
Qed.

Lemma calls_boot ia code foreign oracle : calls_ok (boot ia code foreign oracle).
Proof.
  intros p pth Hp. split; [done|]. intros _ sc Hsc.
  destruct (lookup_boot _ _ _ _ _ _ Hp) as (Hcall & _). congruence.
Qed.

Lemma calls_step cfg t m m' :
  inv cfg m → calls_ok m → step cfg t m = Some m' → calls_ok m'.
Proof.
  intros Hinv IH Hstep c cth' Hc.
  pose proof (inv_events _ _ Hinv) as Hev.
  step_cases Hstep th Ht; simpl in Hc; inv_lookup; simpl;
    rewrite ?own_cons, ?length_alter;
    repeat match goal with
    | |- context [decide (?a = ?a)] => rewrite (decide_True (P := a = a)) by done
    | H : ?a ≠ ?b |- context [decide (?b = ?a)] =>
        rewrite (decide_False (P := b = a)) by done
    | H : ?a ≠ ?b |- context [decide (?a = ?b)] =>
        rewrite (decide_False (P := a = b)) by done
    end.
  all: try (by apply IH).
  all: try (by rewrite (own_unborn _ _ Hev)).
  all: try (match goal with
       | |- context [decide (?a = ?b)] => destruct (decide (a = b)) as [->|?]
       end).
  all: try (by apply IH).
  all: try (pose proof (lookup_lt_Some _ _ _ Ht); lia).
  all: simplify_eq.
  all: gather_calls Hinv;
       repeat match goal with
       | H : threads _ !! ?a = Some ?x |- _ =>
           lazymatch goal with
           | _ : returns_ok (own a _) |- _ => fail
           | _ => destruct (IH _ _ H) as [? ?]
           end
       end.
  all: pose proof (inv_local _ _ Hinv _ _ Ht) as [Hrun _].
  all: split;
       [ first [assumption | simpl; (split; [|assumption]); try done
               | by rewrite (own_unborn _ _ Hev) ]
       | intros Htr sc' Hsc'; simpl in Hsc'; try discriminate;
         try (by specialize (Hrun ltac:(eauto)); congruence) ].
  all: simplify_eq/=.
  all: try (by eexists; reflexivity).
  all: try (match goal with
       | H : trapped _ = false → ∀ sc, call ?x = Some sc → _,
         Hc : call ?x = Some _ |- _ =>
           destruct (H ltac:(done) _ Hc) as [rest Hrest]; rewrite Hrest;
           unfold call_ok, finishing, awaiting in *; simpl in *
       end).
  all: try (by exists rest).
  - destruct_and?.
    match goal with H : _ ≠ 0 → _ = None |- _ => rewrite (H ltac:(done)) end.
    split.
    + split; [done|]. by intros [? ?].
    + exists rest. unfold start_steps. by rewrite decide_False.
  - destruct_and?.
    match goal with
    | H : true = true → _ = 0 ∧ _ |- _ => destruct (H eq_refl) as [-> ?]
    end.
    split; [done|by exists rest].
Qed.

Lemma calls_reachable cfg m : reachable cfg m → calls_ok m.
Proof.
  revert m. apply reachable_ind; [apply calls_boot|].
  intros t m m' Hr IH Hstep. eapply calls_step; [|done..].
  by apply inv_reachable.
Qed.

Lemma returns_ok_split (newer older : list op) (k : start_args) (r : Z)
    (ch : option tid) :
  returns_ok (newer ++ OStartRet k r ch :: older) →
  (r = 0 ↔ is_Some ch) ∧ ∃ rest, older = start_steps k r ch ++ rest.
Proof.
  induction newer as [|o newer IH]; simpl; [tauto|]. intros [_ H]. by apply IH.
Qed.

(** ** The main thread *)

Lemma main_reachable cfg m : reachable cfg m → main_ok m.
Proof.
  revert m. apply reachable_ind.
  - intros ia code fo orc t th Ht.
    destruct (lookup_boot _ _ _ _ _ _ Ht) as (_ & _ & [(-> & -> & _)|(? & -> & _)]).
    + split; eauto.
    + split; [done|]. by intros [? ?].
  - intros t m m' Hr IH Hstep x xth' Hx.
    destruct (decide (x < length (threads m))%nat) as [Hlt|Hge].
    + destruct (step_origin _ _ _ _ _ _ Hstep Hx Hlt) as (xth & Hx0 & <- & _).
      by apply IH.
    + assert (0 < length (threads m))%nat.
      { unfold step in Hstep. destruct (trapped m); [done|].
        destruct (threads m !! t) eqn:E; [|done].
        apply lookup_lt_Some in E. lia. }
      split; [lia|]. intros [ia Ho]. exfalso.
      step_cases Hstep th Ht; simpl in Hx; inv_lookup; simpl in *; try done;
        repeat match goal with
        | H : _ !! _ = Some _ |- _ => apply lookup_lt_Some in H
        end;
        rewrite ?length_alter in *; lia.
Qed.

(** ** The trap *)

Lemma trap_reachable cfg m : reachable cfg m → trap_ok cfg m.
Proof.
  revert m. apply reachable_ind.
  - intros ia code fo orc. split; [|split].
    + simpl. split; [done|]. intros [t Hin]. by apply elem_of_nil in Hin.
    + done.
    + intros _. split; [done|]. intros t th Ht.
      destruct (lookup_boot _ _ _ _ _ _ Ht) as (-> & _ & [(_ & -> & _)|(_ & -> & _)]);
        done.
  - intros t m m' Hr (IH1 & IH2 & IH3) Hstep.
    assert (trapped m = false) as Hnt.
    { unfold step in Hstep. by destruct (trapped m). }
    assert (∀ x, ¬ (x, OTrap) ∈ trace m) as Hno.
    { intros x Hin. destruct IH1 as [_ IH1]. rewrite IH1 in Hnt; [done|eauto]. }
    step_cases Hstep th Ht; unfold trap_ok, unlaunched, sizes_agree in *;
      simpl;
      repeat match goal with H : trapped _ = false |- _ => rewrite H end.
    all: split; [|split].
    all: try (split; [first [done|intros _; eexists; apply elem_of_cons; by left]
               | intros [x Hin]; rewrite ?elem_of_cons in Hin;
                 destruct_or?; simplify_eq; try done; by destruct (Hno x) ]).
    all: try done.
    all: try (intros Hbad; destruct (IH3 Hbad) as [Hlive Hth];
        pose proof (Hth _ _ Ht) as [Ho Hc];
        try (by specialize (Hc _ ltac:(done)));
        try (by exfalso; eapply Ho);
        try done;
        (split; [by rewrite ?Hlive|]);
        intros x xth Hx; simpl in Hx; inv_lookup; simpl;
        first [ by apply Hth
              | by destruct (Hth _ _ ltac:(eassumption)) as [? ?];
                   split; [done|intros ? ?; simplify_eq/=; eauto] ]).
Qed.

(** ** The attribute object and the semaphore *)

Lemma attr_reachable cfg m : reachable cfg m → attr_ok m.
Proof.
  revert m. apply reachable_ind.
  - intros ia code fo orc p. split.
    + intros Hin. simpl in Hin. by apply elem_of_nil in Hin.
    + intros (pth & Hp & Hheld).
      destruct (lookup_boot _ _ _ _ _ _ Hp) as (Hc & _).
      unfold attr_held in Hheld. by rewrite Hc in Hheld.
  - intros t m m' Hr IH Hstep p.
    pose proof (inv_reachable _ _ Hr) as Hinv.
    assert (∀ x xth, threads m !! x = Some xth → attr_held xth = true →
              RAttr x ∈ live m) as IH2.
    { intros x xth Hx Hh. apply IH. eauto. }
    assert (∀ x, RAttr x ∈ live m →
              ∃ xth, threads m !! x = Some xth ∧ attr_held xth = true) as IH1.
    { intros x. apply IH. }
    assert (∀ a b : tid, RAttr a ≠ RAttr b ↔ a ≠ b) as Hneq.
    { intros a b. split; congruence. }
    unfold attr_held in *.
    step_cases Hstep th Ht; simpl;
      rewrite ?elem_of_cons, ?list_elem_of_filter, ?Hneq.
    all: try (match goal with |- context [S (startlock _)] => idtac end;
      split;
      [ intros (xth & Hx & Hh)%IH1;
        match goal with
        | |- ∃ pth, ?L !! ?p = Some pth ∧ _ =>
            assert (∃ y, L !! p = Some y ∧ call y = call xth) as (y & Hy & Hcy)
              by (repeat (apply alter_keeps_call; [|by (left + right)]); eauto)
        end;
        exists y; by rewrite Hcy
      | intros (pth' & Hp' & Hh'); simpl in Hp'; inv_lookup; simpl in *;
        eapply IH2; eauto ]).
    all: split;
      [ intros Hin;
        (destruct (decide (p = t)) as [->|Hne];
         [ eexists; split;
           [ rewrite ?lookup_app_l by (rewrite ?length_alter; by eapply lookup_lt_Some);
             repeat first [ rewrite list_lookup_alter_eq
                          | rewrite list_lookup_alter_ne by done ];
             first [by rewrite Ht|eassumption|idtac]
           | simpl; destruct_or?; destruct_and?; try done;
             try (match goal with H : RAttr _ ∈ live _ |- _ =>
               apply IH1 in H as (xth & Hx & Hh) end);
             simplify_eq; use_eqs; simpl in *; try done ]
         | destruct_or?; destruct_and?; try congruence;
           match goal with H : RAttr _ ∈ live _ |- _ =>
               apply IH1 in H as (xth & Hx & Hh) end;
           exists xth; split;
           [ rewrite ?lookup_app_l by (rewrite ?length_alter; by eapply lookup_lt_Some);
             repeat first [ rewrite list_lookup_alter_ne by done
                          | rewrite list_lookup_alter_eq ];
             try rewrite Hx; try done
           | try done ] ])
      | intros (pth' & Hp' & Hh'); simpl in Hp'; inv_lookup; simpl in *;
        use_eqs; simpl in *; try done;
        first [ by left
              | by right; eapply IH2; [eassumption|]; use_eqs
              | by eapply IH2; [eassumption|]; use_eqs
              | by split; [done|]; eapply IH2; [eassumption|]; use_eqs
              | idtac ] ].
Qed.

Lemma never_fails_step cfg t m m' :
  never_fails m → step cfg t m = Some m' → never_fails m'.
Proof.
  intros [Horc Hres] Hstep.
  assert (hd 0 (create_results m) = 0) as Hhd.
  { destruct (create_results m) as [|r l]; [done|]. by inversion Horc. }
  assert (Forall (λ r, r = 0) (tail (create_results m))) as Htl.
  { destruct (create_results m) as [|r l]; [done|]. by inversion Horc. }
  step_cases Hstep th Ht; (split; [by simpl|]);
    intros p pth sc' Hp Hsc'; simpl in Hp; inv_lookup; simpl in *;
    simplify_eq/=; try done;
    try (by eapply Hres; [eassumption|]; use_eqs);
    try (match goal with H : call _ = Some _ |- _ => exact (Hres _ _ _ Ht H) end).
Qed.

Lemma sem_step cfg t m m' :
  never_fails m → sem_ok m → step cfg t m = Some m' → sem_ok m'.
Proof.
  intros [Horc Hres] IH Hstep p.
  assert (∀ x xth, threads m !! x = Some xth → sem_held xth = true →
            RSem x ∈ live m) as IH2.
  { intros x xth Hx Hh. apply IH. eauto. }
  assert (∀ x, RSem x ∈ live m →
            ∃ xth, threads m !! x = Some xth ∧ sem_held xth = true) as IH1.
  { intros x. apply IH. }
  assert (∀ a b : tid, RSem a ≠ RSem b ↔ a ≠ b) as Hneq.
  { intros a b. split; congruence. }
  unfold sem_held in *.
  step_cases Hstep th Ht; simpl;
    rewrite ?elem_of_cons, ?list_elem_of_filter, ?Hneq.
  all: try (by specialize (Hres _ _ _ Ht ltac:(done))).
  all: try (match goal with |- context [S (startlock _)] => idtac end;
    split;
    [ intros (xth & Hx & Hh)%IH1;
      match goal with
      | |- ∃ pth, ?L !! ?p = Some pth ∧ _ =>
          assert (∃ y, L !! p = Some y ∧ call y = call xth) as (y & Hy & Hcy)
            by (repeat (apply alter_keeps_call; [|by (left + right)]); eauto)
      end;
      exists y; by rewrite Hcy
    | intros (pth' & Hp' & Hh'); simpl in Hp'; inv_lookup; simpl in *;
      eapply IH2; eauto ]).
  all: split;
    [ intros Hin;
      (destruct (decide (p = t)) as [->|Hne];
       [ eexists; split;
         [ rewrite ?lookup_app_l by (rewrite ?length_alter; by eapply lookup_lt_Some);
           repeat first [ rewrite list_lookup_alter_eq
                        | rewrite list_lookup_alter_ne by done ];
           first [by rewrite Ht|eassumption|idtac]
         | simpl; destruct_or?; destruct_and?; try done;
           try (match goal with H : RSem _ ∈ live _ |- _ =>
             apply IH1 in H as (xth & Hx & Hh) end);
           simplify_eq; use_eqs; simpl in *; try done ]
       | destruct_or?; destruct_and?; try congruence;
         match goal with H : RSem _ ∈ live _ |- _ =>
             apply IH1 in H as (xth & Hx & Hh) end;
         exists xth; split;
         [ rewrite ?lookup_app_l by (rewrite ?length_alter; by eapply lookup_lt_Some);
           repeat first [ rewrite list_lookup_alter_ne by done
                        | rewrite list_lookup_alter_eq ];
           try rewrite Hx; try done
         | try done ] ])
    | intros (pth' & Hp' & Hh'); simpl in Hp'; inv_lookup; simpl in *;
      use_eqs; simpl in *; try done;
      first [ by left
            | by right; eapply IH2; [eassumption|]; use_eqs
            | by eapply IH2; [eassumption|]; use_eqs
            | by split; [done|]; eapply IH2; [eassumption|]; use_eqs
            | idtac ] ].
Qed.

(** ** Where threads and stored words come from *)

Lemma alter_keeps {A : Type} (g : thread → A) (f : thread → thread)
    (i c : nat) (l : list thread) (v : A) :
  (∃ y, l !! c = Some y ∧ g y = v) → (∀ y, g (f y) = g y) →
  ∃ y, alter f i l !! c = Some y ∧ g y = v.
Proof.
  intros (y & Hy & Hv) Hf. destruct (decide (i = c)) as [->|Hne].
  - exists (f y). rewrite list_lookup_alter_eq, Hy. split; [done|]. by rewrite Hf.
  - exists y. by rewrite list_lookup_alter_ne.
Qed.

Lemma alter_keeps_prop (Q : thread → Prop) (f : thread → thread)
    (i c : nat) (l : list thread) :
  (∃ y, l !! c = Some y ∧ Q y) → (i ≠ c ∨ ∀ y, Q y → Q (f y)) →
  ∃ y, alter f i l !! c = Some y ∧ Q y.
Proof.
  intros (y & Hy & Hv) Hf. destruct (decide (i = c)) as [->|Hne].
  - destruct Hf as [?|Hf]; [done|]. exists (f y).
    rewrite list_lookup_alter_eq, Hy. split; [done|]. by apply Hf.
  - exists y. by rewrite list_lookup_alter_ne.
Qed.

(** A thread stays in the table, with its origin. *)
Lemma step_origin_fwd cfg t m m' x xth :
  step cfg t m = Some m' → threads m !! x = Some xth →
  ∃ xth', threads m' !! x = Some xth' ∧ origin_of xth' = origin_of xth.
Proof.
  intros Hstep Hx. pose proof (lookup_lt_Some _ _ _ Hx) as Hlt.
  step_cases Hstep th Ht; simpl;
    rewrite ?lookup_app_l by (rewrite ?length_alter; lia);
    repeat (apply (alter_keeps origin_of); [|done]);
    eauto.
Qed.

Lemma provenance_reachable cfg m : reachable cfg m → provenance_ok m.
Proof.
  revert m. apply reachable_ind.
  - intros ia code fo orc. split; [|split].
    + intros p pth sc Hp Hsc.
      destruct (lookup_boot _ _ _ _ _ _ Hp) as (Hc & _). congruence.
    + intros c cth p k Hc Ho.
      destruct (lookup_boot _ _ _ _ _ _ Hc) as (_ & _ & [(_ & ? & _)|(_ & ? & _)]);
        congruence.
    + intros p r ch Hin. simpl in Hin. by apply elem_of_nil in Hin.
  - intros t m m' Hr (IH1 & IH2 & IH3) Hstep.
    assert (trace m ⊆ trace m') as Hsub.
    { destruct (step_trace _ _ _ _ Hstep) as [->|[o ->]]; [done|].
      intros e He. apply elem_of_cons. by right. }
    split; [|split].
    + intros p pth sc' Hp Hsc'.
      step_cases Hstep th Ht; simpl in Hp; inv_lookup; simpl in *;
        simplify_eq/=;
        try (by apply Hsub; eapply IH1; [eassumption|]);
        rewrite ?elem_of_cons;
        first [ by left
              | right; match goal with
                       | H : call _ = Some _ |- _ => exact (IH1 _ _ _ Ht H)
                       end
              | match goal with
                | H : call _ = Some _ |- _ => exact (IH1 _ _ _ Ht H)
                end ].
    + intros c cth p k Hc Ho.
      step_cases Hstep th Ht; simpl in Hc; inv_lookup; simpl in *;
        simplify_eq/=;
        try (by match goal with
                | H : threads _ !! _ = Some ?x, Ho : origin_of ?x = _ |- _ =>
                    destruct (IH2 _ _ _ _ H Ho); split;
                    first [done|apply elem_of_cons; by right]
                end).
      rewrite length_alter. split; [|apply elem_of_cons; by left].
      apply elem_of_cons. right.
      match goal with H : call _ = Some _ |- _ => exact (IH1 _ _ _ Ht H) end.
    + intros p r ch Hin.
      assert ((p, OCreate r ch) ∈ trace m ∨
              (p = t ∧ ((r = 0 ∧ ch = Some (length (threads m))
                         ∧ ∃ cth k, threads m' !! length (threads m) = Some cth
                                    ∧ origin_of cth = Spawned t k)
                        ∨ (r ≠ 0 ∧ ch = None)))) as [Hold|(-> & Hnew)].
      { step_cases Hstep th Ht; simpl in Hin;
          rewrite ?elem_of_cons in Hin; destruct_or?; simplify_eq/=; eauto.
        right. split; [done|]. left. split_and!; try done.
        eexists _, _. rewrite lookup_app_r by (by rewrite length_alter).
        rewrite length_alter, Nat.sub_diag. done. }
      * specialize (IH3 _ _ _ Hold). destruct ch as [c|]; [|done].
        destruct IH3 as (-> & cth & k & Hc & Ho). split; [done|].
        destruct (step_origin_fwd _ _ _ _ _ _ Hstep Hc) as (cth' & Hc' & Ho').
        exists cth', k. split; [done|congruence].
      * destruct Hnew as [(-> & -> & Hnew)|(? & ->)]; [|done]. by split.
Qed.

Lemma frame_reachable cfg m : reachable cfg m → frame_ok m.
Proof.
  revert m. apply reachable_ind.
  - intros ia code fo orc a v Hm. simpl in Hm. by rewrite lookup_empty in Hm.
  - intros t m m' Hr IH Hstep a v Hm.
    pose proof (inv_reachable _ _ Hr) as Hinv.
    pose proof (main_reachable _ _ Hr) as Hmain.
    pose proof (provenance_reachable _ _ Hr) as (Hcalled & Hmade & _).
    assert (trace m ⊆ trace m') as Hsub.
    { destruct (step_trace _ _ _ _ Hstep) as [->|[o ->]]; [done|].
      intros e He. apply elem_of_cons. by right. }
    assert (mem m !! a = Some v ∨
            (∃ th ia, threads m !! 0%nat = Some th ∧ origin_of th = Main ia
                      ∧ (a = i_thread ia ∨ a = i_numCPU ia))
            ∨ (∃ p k, (p, OStartCall k) ∈ trace m
                      ∧ (a = a_thread k ∨ a = a_stackTop k)))
      as [Hold|Hnew].
    { step_cases Hstep th Ht; simpl in Hm;
        try (apply lookup_insert_Some in Hm as [[<- <-]|[_ Hm]]);
        try (by left).
      - right. left.
        assert (t = 0%nat) as -> by (apply (Hmain _ _ Ht); eauto). eauto 10.
      - right. left.
        assert (t = 0%nat) as -> by (apply (Hmain _ _ Ht); eauto). eauto 10.
      - right. right.
        assert (t_pc th = WStackTop) as Hpc by done.
        destruct (inv_local _ _ Hinv _ _ Ht) as [_ Hl]. rewrite Hpc in Hl.
        destruct (origin_of th) as [ia| |p k] eqn:Ho; simpl in Hl;
          [by destruct Hl|by destruct Hl|].
        destruct Hl as (Hw & _). subst p.
        match goal with H : threads m !! w_state th = Some ?x |- _ =>
          destruct (inv_pair _ _ Hinv _ _ _ _ Ht H) as [Hp _] end.
        destruct (Hp k Ho) as (sc & _ & _ & _ & _ & _ & Hrec);
          [by rewrite Hpc|].
        destruct Hrec as (_ & _ & _ & ->).
        destruct (Hmade _ _ _ _ Ht Ho) as [? _]. eauto 10.
      - right. right. exists t, k. split; [|by left].
        match goal with H : call th = Some _ |- _ => exact (Hcalled _ _ _ Ht H) end. }
    + destruct (IH _ _ Hold) as [(th & ia & H0 & Ho & Ha)|(p & k & Hin & Ha)].
      * left. destruct (step_origin_fwd _ _ _ _ _ _ Hstep H0) as (th' & H0' & Ho').
        exists th', ia. split_and!; [done|congruence|done].
      * right. exists p, k. split; [by apply Hsub|done].
    + destruct Hnew as [(th & ia & H0 & Ho & Ha)|(p & k & Hin & Ha)].
      * left. destruct (step_origin_fwd _ _ _ _ _ _ Hstep H0) as (th' & H0' & Ho').
        exists th', ia. split_and!; [done|congruence|done].
      * right. exists p, k. split; [by apply Hsub|done].
Qed.

(** ** The rendezvous cannot get stuck *)

Lemma sem_wait_cases cfg m p pth sc :
  inv cfg m → threads m !! p = Some pth → call pth = Some sc →
  s_pc sc = SWait →
  ∃ c cth, s_child sc = Some c ∧ threads m !! c = Some cth
    ∧ origin_of cth = Spawned p (s_k sc) ∧ w_state cth = p ∧ (p < c)%nat
    ∧ startlock (state pth) = if pre_post (t_pc cth) then 0%nat else 1%nat.
Proof.
  intros Hinv Hp Hsc Hpc.
  destruct (inv_call _ _ Hinv _ _ _ Hp Hsc) as (_ & _ & Haw & Hres & _ & _ & Hlt).
  unfold awaiting in Haw. rewrite Hpc in Haw.
  destruct (Haw eq_refl (Hres Hpc)) as [c Hc].
  destruct (lookup_lt_is_Some_2 _ _ (Hlt c Hc)) as [cth Hcth].
  destruct (inv_pair _ _ Hinv _ _ _ _ Hcth Hp) as [_ Hpair].
  destruct (Hpair sc Hsc Hc) as (Ho & Hlock & _).
  unfold awaiting in Hlock. rewrite Hpc in Hlock.
  destruct (inv_local _ _ Hinv _ _ Hcth) as [_ Hl]. rewrite Ho in Hl.
  destruct Hl as (Hw & Hlt' & _).
  exists c, cth. split_and!; auto.
Qed.

(** A thread that has not yet posted can always take its next step. *)
Lemma wrapper_moves cfg m c cth p k :
  inv cfg m → trapped m = false → threads m !! c = Some cth →
  origin_of cth = Spawned p k → pre_post (t_pc cth) = true →
  ∃ m', step cfg c m = Some m' ∧ trapped m' = false
    ∧ (∃ cth', threads m' !! c = Some cth'
         ∧ rank (t_pc cth') = S (rank (t_pc cth))
         ∧ in_init (t_pc cth') = false)
    ∧ (∀ x xth, x ≠ c → threads m !! x = Some xth →
         ∃ xth', threads m' !! x = Some xth' ∧ call xth' = call xth
                 ∧ t_pc xth' = t_pc xth).
Proof.
  intros Hinv Htr Hc Ho Hpre.
  destruct (inv_local _ _ Hinv _ _ Hc) as [_ Hl]. rewrite Ho in Hl.
  destruct Hl as (Hw & Hlt & _).
  destruct (lookup_lt_is_Some_2 (threads m) p) as [pth Hp];
    [apply lookup_lt_Some in Hc; lia|].
  unfold step. rewrite Htr, Hc. simpl. unfold step_thread.
  destruct (t_pc cth) eqn:Hpc; try done; rewrite ?Hw, ?Hp; simpl;
    (eexists; split; [reflexivity|]; split; [done|]; split;
     [ eexists; split;
       [ simpl; rewrite ?list_lookup_alter_ne by lia;
         rewrite !list_lookup_alter_eq, ?list_lookup_alter_eq, Hc;
         reflexivity
       | by simpl ]
     | intros x xth Hne Hx; simpl;
       repeat (apply (alter_keeps_prop
                        (λ y, call y = call xth ∧ t_pc y = t_pc xth));
               [|first [by left; apply not_eq_sym | by right]]);
       eauto ]).
Qed.

(** The caller can always take its next step of [tinygo_task_start],
    the wait on an empty semaphore apart; no other thread is touched. *)
Lemma start_moves cfg m p pth sc :
  inv cfg m → trapped m = false → sizes_agree cfg →
  threads m !! p = Some pth → call pth = Some sc →
  (s_pc sc = SWait → startlock (state pth) ≠ 0%nat) →
  ∃ m', step cfg p m = Some m' ∧ trapped m' = false
    ∧ ((∃ pth' r ch, threads m' !! p = Some pth' ∧ call pth' = None
          ∧ head (trace m') = Some (p, OStartRet (s_k sc) r ch))
       ∨ (∃ pth' sc', threads m' !! p = Some pth' ∧ call pth' = Some sc'
            ∧ s_k sc' = s_k sc
            ∧ S (spc_left (s_pc sc')) = spc_left (s_pc sc)
            ∧ (s_pc sc ≠ SCreate → s_child sc' = s_child sc)))
    ∧ (∀ x xth, x ≠ p → threads m !! x = Some xth → threads m' !! x = Some xth).
Proof.
  intros Hinv Htr Hsz Hp Hsc Hlock.
  destruct (inv_local _ _ Hinv _ _ Hp) as [Hrun _].
  specialize (Hrun ltac:(eauto)).
  pose proof (lookup_lt_Some _ _ _ Hp) as Hlt.
  unfold step. rewrite Htr, Hp. simpl. unfold step_thread.
  rewrite Hrun, Hsc. unfold step_start.
  destruct sc as [q k res ch]. simpl in *.
  destruct q; simpl;
    repeat match goal with
    | |- context [decide ?P] => destruct (decide P)
    | |- context [match startlock ?s with _ => _ end] =>
        destruct (startlock s) eqn:?
    end; try done; try (by exfalso; apply Hlock).
  all: eexists; split; [reflexivity|]; split; [done|]; split;
    [ first
      [ left; eexists _, _, _; split;
        [ simpl; rewrite ?lookup_app_l by (rewrite ?length_alter; lia);
          rewrite ?list_lookup_alter_eq, Hp; reflexivity
        | split; reflexivity ]
      | right; eexists _, _; split;
        [ simpl; rewrite ?lookup_app_l by (rewrite ?length_alter; lia);
          rewrite ?list_lookup_alter_eq, Hp; reflexivity
        | simpl; split_and!; try done ] ]
    | intros x xth Hne Hx; simpl;
      rewrite ?lookup_app_l by (rewrite ?length_alter; by eapply lookup_lt_Some);
      by rewrite ?list_lookup_alter_ne by done ].
Qed.

Lemma child_left_bound m sc : (child_left m sc ≤ 5)%nat.
Proof.
  unfold child_left. case_bool_decide; [done|].
  destruct (s_child sc) as [c|]; [|lia].
  destruct (threads m !! c) as [cth|]; [|lia].
  destruct (pre_post (t_pc cth)); lia.
Qed.

Lemma steps_left_bound m sc : (steps_left m sc ≤ 17)%nat.
Proof.
  unfold steps_left. pose proof (child_left_bound m sc).
  destruct (s_pc sc); simpl; lia.
Qed.

(** Whatever the state of a call, the caller or the thread it made
    can take a step that brings the return nearer. *)
Lemma start_progress cfg m p pth sc :
  inv cfg m → trapped m = false → sizes_agree cfg →
  threads m !! p = Some pth → call pth = Some sc →
  ∃ t m', step cfg t m = Some m' ∧ trapped m' = false
    ∧ (t = p ∨ ∃ cth k, threads m !! t = Some cth ∧ origin_of cth = Spawned p k)
    ∧ ((∃ pth' r ch, threads m' !! p = Some pth' ∧ call pth' = None
          ∧ head (trace m') = Some (p, OStartRet (s_k sc) r ch))
       ∨ (∃ pth' sc', threads m' !! p = Some pth' ∧ call pth' = Some sc'
            ∧ s_k sc' = s_k sc
            ∧ (steps_left m' sc' < steps_left m sc)%nat)).
Proof.
  intros Hinv Htr Hsz Hp Hsc.
  destruct (decide (s_pc sc = SWait)) as [Hw|Hnw].
  - destruct (sem_wait_cases _ _ _ _ _ Hinv Hp Hsc Hw)
      as (c & cth & Hch & Hc & Ho & Hws & Hlt & Hlock).
    destruct (pre_post (t_pc cth)) eqn:Hpre.
    + destruct (wrapper_moves _ _ _ _ _ _ Hinv Htr Hc Ho Hpre)
        as (m' & Hstep & Htr' & (cth' & Hc' & Hrk & Hin) & Hoth).
      exists c, m'. split; [done|]. split; [done|]. split; [right; eauto|].
      right.
      destruct (Hoth p pth ltac:(lia) Hp) as (pth' & Hp' & Hcall & _).
      exists pth', sc. split; [done|]. split; [congruence|]. split; [done|].
      unfold steps_left, child_left. rewrite Hw, Hch, Hc, Hc', Hpre. simpl.
      destruct (t_pc cth); try done; destruct (t_pc cth'); simpl in *; try done; try lia.
    + destruct (start_moves _ _ _ _ _ Hinv Htr Hsz Hp Hsc)
        as (m' & Hstep & Htr' & Hres & Hoth); [by rewrite Hlock|].
      exists p, m'. split; [done|]. split; [done|]. split; [by left|].
      destruct Hres as [?|(pth' & sc' & Hp' & Hsc' & Hk & Hleft & Hsame)];
        [by left|right].
      exists pth', sc'. split_and!; try done.
      unfold steps_left, child_left. rewrite Hw in *. simpl in *.
      injection Hleft as Hleft. rewrite Hleft. simpl.
      rewrite Hsame, Hch by done.
      rewrite (Hoth c cth ltac:(lia) Hc), Hc, Hpre. lia.
  - destruct (start_moves _ _ _ _ _ Hinv Htr Hsz Hp Hsc)
      as (m' & Hstep & Htr' & Hres & Hoth); [done|].
    exists p, m'. split; [done|]. split; [done|]. split; [by left|].
    destruct Hres as [?|(pth' & sc' & Hp' & Hsc' & Hk & Hleft & Hsame)];
      [by left|right].
    exists pth', sc'. split_and!; try done.
    unfold steps_left. rewrite <- Hleft.
    pose proof (child_left_bound m' sc') as Hb.
    destruct (decide (s_pc sc = SCreate)) as [Hcr|Hncr].
    { assert (child_left m sc = 5%nat) as ->; [|lia].
      unfold child_left. by rewrite Hcr. }
    clear Hb. unfold child_left in *.
    rewrite Hsame by done.
    destruct (s_child sc) as [c|] eqn:Hch; [|repeat case_bool_decide; lia].
    destruct (inv_call _ _ Hinv _ _ _ Hp Hsc) as (_ & _ & _ & _ & _ & _ & Hlen).
    destruct (lookup_lt_is_Some_2 _ _ (Hlen c Hch)) as [cth Hc].
    destruct (inv_pair _ _ Hinv _ _ _ _ Hc Hp) as [_ Hpair].
    destruct (Hpair sc Hsc Hch) as (Ho & _).
    destruct (inv_local _ _ Hinv _ _ Hc) as [_ Hl]. rewrite Ho in Hl.
    destruct Hl as (_ & Hlt & _).
    rewrite (Hoth c cth ltac:(lia) Hc), Hc.
    repeat case_bool_decide; destruct (pre_post (t_pc cth)); lia.
Qed.

Lemma run_origin_fwd cfg sched m x xth :
  threads m !! x = Some xth →
  ∃ xth', threads (run cfg sched m) !! x = Some xth'
          ∧ origin_of xth' = origin_of xth.
Proof.
  revert m xth. induction sched as [|t sched IH]; intros m xth Hx; [eauto|].
  simpl. destruct (step cfg t m) as [m'|] eqn:Hs; simpl; [|by apply IH].
  destruct (step_origin_fwd _ _ _ _ _ _ Hs Hx) as (xth' & Hx' & Ho).
  destruct (IH _ _ Hx') as (xth'' & Hx'' & Ho'). exists xth''.
  split; [done|congruence].
Qed.

Lemma start_finishes cfg (n : nat) : ∀ m p pth sc,
  inv cfg m → trapped m = false → sizes_agree cfg →
  threads m !! p = Some pth → call pth = Some sc →
  (steps_left m sc ≤ n)%nat →
  ∃ sched, (length sched ≤ n)%nat
    ∧ (∀ t, t ∈ sched →
         t = p ∨ ∃ cth k, threads (run cfg sched m) !! t = Some cth
                          ∧ origin_of cth = Spawned p k)
    ∧ ∃ pth' r ch, threads (run cfg sched m) !! p = Some pth'
        ∧ call pth' = None
        ∧ head (trace (run cfg sched m)) = Some (p, OStartRet (s_k sc) r ch)
        ∧ trapped (run cfg sched m) = false.
Proof.
  induction n as [|n IH]; intros m p pth sc Hinv Htr Hsz Hp Hsc Hn.
  - unfold steps_left in Hn. destruct (s_pc sc); simpl in Hn; lia.
  - destruct (start_progress _ _ _ _ _ Hinv Htr Hsz Hp Hsc)
      as (t & m' & Hstep & Htr' & Hwho
          & [(pth' & r & ch & Hp' & Hc' & Hhd)
            |(pth' & sc' & Hp' & Hsc' & Hk & Hless)]).
    + exists [t]. split; [simpl; lia|]. simpl. rewrite Hstep. simpl. split.
      * intros t' [->|Ht']%elem_of_cons; [|by apply elem_of_nil in Ht'].
        destruct Hwho as [?|(cth & k & Hc & Ho)]; [by left|right].
        destruct (step_origin_fwd _ _ _ _ _ _ Hstep Hc) as (cth' & ? & ?).
        exists cth', k. split; [done|congruence].
      * exists pth', r, ch. done.
    + destruct (IH m' p pth' sc') as (sched & Hlen & Hthreads & Hfin); try done.
      { by eapply inv_step. }
      { lia. }
      exists (t :: sched). split; [simpl; lia|]. simpl. rewrite Hstep. simpl.
      split; [|by rewrite <- Hk].
      intros t' [->|Ht']%elem_of_cons; [|by apply Hthreads].
      destruct Hwho as [?|(cth & k & Hc & Ho)]; [by left|right].
      destruct (step_origin_fwd _ _ _ _ _ _ Hstep Hc) as (cth' & Hc' & Ho').
      destruct (run_origin_fwd cfg sched _ _ _ Hc') as (cth'' & ? & ?).
      exists cth'', k. split; [done|congruence].
Qed.

(** ** Counting events *)

Lemma count_app P l1 l2 : count P (l1 ++ l2) = (count P l1 + count P l2)%nat.
Proof. unfold count. by rewrite filter_app, length_app. Qed.

Lemma count_task_ops (P : op → bool) (body : list op) :
  (∀ o, P o = true → task_op o = false) →
  forallb task_op body = true → count P body = 0%nat.
Proof.
  intros HP. induction body as [|o body IH]; [done|]. simpl.
  intros [Ho Hb]%andb_prop. unfold count in *. rewrite filter_cons.
  destruct (decide (P o = true)) as [HPo|]; [|by apply IH].
  rewrite (HP _ HPo) in Ho. done.
Qed.

Lemma elem_of_task_ops (o : op) (body : list op) :
  forallb task_op body = true → o ∈ body → task_op o = true.
Proof.
  rewrite forallb_forall. intros H Hin. apply H. by apply list_elem_of_In.
Qed.

Lemma own_thread cfg m t o :
  reachable cfg m → o ∈ own t (trace m) → is_Some (threads m !! t).
Proof.
  intros Hr Hin%elem_of_own. apply lookup_lt_is_Some_2.
  by eapply (inv_events _ _ (inv_reachable _ _ Hr)).
Qed.

(** ** Properties of [tinygo_task_init] *)

(** X1: [tinygo_task_init], run on the main thread from process start
    with [thread] and [numCPU] pointing to different objects, binds the
    main task, stores the identity of the main thread through [thread]
    and the CPU count through [numCPU], and installs the pause handler
    with [SA_RESTART]; it changes nothing else. *)
Theorem tinygo_task_init_effects
    (cfg : config) (ia : init_args) (code : list uaction)
    (foreign : list (list uaction)) (oracle : list Z) :
  i_thread ia ≠ i_numCPU ia →
  let m := run cfg [0; 0; 0; 0]%nat (boot ia code foreign oracle) in
  let n := numCPU_of_sysconf (sysconf_nprocs cfg) in
  threads m
  = set_pc Running (set_current_task (i_mainTask ia)
                      (fresh_thread (Main ia) IBind 0%nat code))
    :: (fresh_thread Foreign Running 0%nat <$> foreign)
  ∧ mem m = <[i_numCPU ia := n]> (<[i_thread ia := 0]> ∅)
  ∧ mem m !! i_thread ia = Some 0
  ∧ mem m !! i_numCPU ia = Some n
  ∧ handlers m = [(taskPauseSignal (c_host cfg) (c_sigs cfg), true)]
  ∧ pending m = [] ∧ live m = [] ∧ create_results m = oracle
  ∧ trapped m = false.
Proof.
  intros Hne m n. split_and!; try reflexivity.
  - subst m. unfold run, step; simpl. unfold store; simpl.
    rewrite lookup_insert_ne by done. apply lookup_insert_eq.
  - subst m. unfold run, step; simpl. unfold store; simpl.
    apply lookup_insert_eq.
Qed.

Lemma tinygo_task_init_effects_witness :
  let m := run cfg_linux [0; 0; 0; 0]%nat (boot ia0 [] [] []) in
  i_thread ia0 ≠ i_numCPU ia0
  ∧ mem m !! i_thread ia0 = Some 0
  ∧ mem m !! i_numCPU ia0 = Some 4.
Proof.
  intros m.
  assert (i_thread ia0 ≠ i_numCPU ia0) as Hne by (vm_compute; discriminate).
  destruct (tinygo_task_init_effects cfg_linux ia0 [] [] [] Hne)
    as (_ & _ & Hth & Hn & _).
  split; [exact Hne|]. split; [exact Hth|exact Hn].
Defined.

Lemma main_answers cfg m :
  reachable cfg m →
  ∀ c v cth ia, (c, OCurrent v) ∈ trace m → threads m !! c = Some cth →
    origin_of cth = Main ia → v = i_mainTask ia.
Proof.
  revert m.
  apply (reachable_ind cfg (λ m, ∀ c v cth ia,
           (c, OCurrent v) ∈ trace m → threads m !! c = Some cth →
           origin_of cth = Main ia → v = i_mainTask ia)).
  - intros ia code fo orc c v cth ia' Hin. simpl in Hin.
    by apply elem_of_nil in Hin.
  - intros t m m' Hr IH Hstep c v cth' ia Hin Hc Ho.
    pose proof (inv_reachable _ _ Hr) as Hinv.
    assert ((c, OCurrent v) ∈ trace m ∨
            (c = t ∧ ∃ th, threads m !! t = Some th ∧ t_pc th = Running
                           ∧ v = current_task th)) as [Hold|(-> & th & Ht & Hpc & ->)].
    { clear Hc. step_cases Hstep th Ht; simpl in Hin;
        rewrite ?elem_of_cons in Hin; destruct_or?; simplify_eq; eauto 10. }
    + pose proof (inv_events _ _ Hinv _ _ Hold) as Hlt.
      destruct (step_origin _ _ _ _ _ _ Hstep Hc Hlt) as (cth & Hc0 & Ho' & _).
      eapply IH; [done..|congruence].
    + pose proof (lookup_lt_Some _ _ _ Ht) as Hlt.
      destruct (step_origin _ _ _ _ _ _ Hstep Hc Hlt) as (cth & Hc0 & Ho' & _).
      assert (cth = th) as -> by congruence.
      pose proof (inv_local _ _ Hinv _ _ Ht) as [_ Hl].
      rewrite Ho', Ho, Hpc in Hl. by destruct Hl as [_ ->].
Qed.

(** X2: the main thread is thread 0; from the first statement of
    [tinygo_task_init] on, [tinygo_task_current] gives the main task on
    it, every answer it has given there is the main task, and no step of
    another thread changes that. *)
Theorem main_task_stays_current
    (cfg : config) (m : machine) (t : tid) (th : thread) (ia : init_args) :
  reachable cfg m → threads m !! t = Some th → origin_of th = Main ia →
  t = 0%nat
  ∧ (t_pc th ≠ IBind → tinygo_task_current th = i_mainTask ia)
  ∧ (∀ v, (t, OCurrent v) ∈ trace m → v = i_mainTask ia)
  ∧ (∀ x m', x ≠ t → step cfg x m = Some m' →
       ∃ th', threads m' !! t = Some th'
              ∧ tinygo_task_current th' = tinygo_task_current th).
Proof.
  intros Hr Ht Ho. split_and!.
  - apply (main_reachable _ _ Hr _ _ Ht). eauto.
  - intros Hpc. destruct (inv_local _ _ (inv_reachable _ _ Hr) _ _ Ht) as [_ Hl].
    rewrite Ho in Hl. destruct Hl as [_ Hcur]. unfold tinygo_task_current.
    by rewrite Hcur, bool_decide_eq_false_2.
  - intros v Hin. by eapply main_answers.
  - intros x m' Hne Hstep. by eapply step_keeps_other_current_task.
Qed.

Lemma main_task_stays_current_witness :
  let m := run cfg_linux (replicate 12 0 ++ replicate 5 1 ++ replicate 5 0)%nat
             (boot ia0 [UStart k0; UCurrent] [] []) in
  (tinygo_task_current <$> threads m !! 0%nat) = Some (i_mainTask ia0)
  ∧ (call <$> threads m !! 0%nat) = Some None.
Proof.
  intros m.
  assert (reachable cfg_linux m) as Hr by apply reachable_run, reachable_boot.
  destruct (threads m !! 0%nat) as [th|] eqn:Ht; [|by vm_compute in Ht].
  destruct (main_task_stays_current cfg_linux m 0%nat th ia0 Hr Ht)
    as (_ & Hcur & _).
  - vm_compute in Ht. by injection Ht as <-.
  - simpl. rewrite Hcur.
    + split; [done|]. vm_compute in Ht. by injection Ht as <-.
    + vm_compute in Ht. by injection Ht as <-.
Defined.

(** ** Properties of [tinygo_task_start] *)

(** X5: the attribute object of a thread is alive exactly while that
    thread is between [pthread_attr_init] and [pthread_attr_destroy] of
    a call of [tinygo_task_start]: whether [pthread_create] fails or
    not, no attribute object is left once the call has returned. *)
Theorem attr_object_is_always_destroyed (cfg : config) (m : machine) (p : tid) :
  reachable cfg m →
  (RAttr p ∈ live m ↔
   ∃ pth, threads m !! p = Some pth ∧ attr_held pth = true)
  ∧ (∀ pth, threads m !! p = Some pth → call pth = None → RAttr p ∉ live m).
Proof.
  intros Hr. pose proof (attr_reachable _ _ Hr p) as Hiff. split; [done|].
  intros pth Hp Hc (pth' & Hp' & Hheld)%Hiff.
  assert (pth' = pth) as -> by congruence.
  unfold attr_held in Hheld. by rewrite Hc in Hheld.
Qed.

Lemma attr_object_is_always_destroyed_witness :
  let m := run cfg_apple (replicate 14 0%nat) (boot ia0 [UStart k0] [] [EAGAIN]) in
  head (trace m) = Some (0%nat, OStartRet k0 EAGAIN None)
  ∧ RAttr 0%nat ∉ live m.
Proof.
  intros m.
  assert (reachable cfg_apple m) as Hr by apply reachable_run, reachable_boot.
  split; [by vm_compute|].
  destruct (attr_object_is_always_destroyed cfg_apple m 0%nat Hr) as [_ H].
  destruct (threads m !! 0%nat) as [th|] eqn:Ht; [|by vm_compute in Ht].
  apply (H th eq_refl). vm_compute in Ht. by injection Ht as <-.
Defined.

Lemma sem_run cfg sched m :
  never_fails m → sem_ok m →
  never_fails (run cfg sched m) ∧ sem_ok (run cfg sched m).
Proof.
  revert m. induction sched as [|t sched IH]; intros m Hnf Hsem; [done|].
  simpl. destruct (step cfg t m) as [m'|] eqn:Hs; simpl; [|by apply IH].
  apply IH; [by eapply never_fails_step|by eapply sem_step].
Qed.

Lemma sem_boot ia code foreign oracle :
  Forall (λ r, r = 0) oracle →
  never_fails (boot ia code foreign oracle) ∧ sem_ok (boot ia code foreign oracle).
Proof.
  intros Horc. split; [split; [done|]|].
  - intros p pth sc Hp Hsc.
    destruct (lookup_boot _ _ _ _ _ _ Hp) as (Hc & _). congruence.
  - intros p. split.
    + intros Hin. simpl in Hin. by apply elem_of_nil in Hin.
    + intros (pth & Hp & Hheld).
      destruct (lookup_boot _ _ _ _ _ _ Hp) as (Hc & _).
      unfold sem_held in Hheld. by rewrite Hc in Hheld.
Qed.

(** X6: in a run in which [pthread_create] never fails, the semaphore
    of a thread is alive exactly while that thread is between [sem_init]
    and [sem_destroy] of a call of [tinygo_task_start]; when no call is
    under way nothing at all is left allocated. *)
Theorem semaphore_is_destroyed_when_create_succeeds
    (cfg : config) (ia : init_args) (code : list uaction)
    (foreign : list (list uaction)) (oracle : list Z) (sched : list tid) :
  Forall (λ r, r = 0) oracle →
  let m := run cfg sched (boot ia code foreign oracle) in
  (∀ p, RSem p ∈ live m ↔
        ∃ pth, threads m !! p = Some pth ∧ sem_held pth = true)
  ∧ ((∀ p pth, threads m !! p = Some pth → call pth = None) → live m = []).
Proof.
  intros Horc m.
  destruct (sem_boot ia code foreign oracle Horc) as [Hnf Hsem].
  destruct (sem_run cfg sched _ Hnf Hsem) as [_ Hsem'].
  split; [exact Hsem'|]. intros Hidle.
  assert (reachable cfg m) as Hr by apply reachable_run, reachable_boot.
  pose proof (attr_reachable _ _ Hr) as Hattr.
  destruct (live m) as [|r l] eqn:Hlive; [done|]. exfalso.
  assert (r ∈ live m) as Hin by (rewrite Hlive; apply elem_of_cons; by left).
  destruct r as [p|p].
  - apply Hsem' in Hin as (pth & Hp & Hheld).
    unfold sem_held in Hheld. by rewrite (Hidle _ _ Hp) in Hheld.
  - apply Hattr in Hin as (pth & Hp & Hheld).
    unfold attr_held in Hheld. by rewrite (Hidle _ _ Hp) in Hheld.
Qed.

Lemma semaphore_is_destroyed_when_create_succeeds_witness :
  let m := run cfg_linux (replicate 12 0 ++ replicate 5 1 ++ replicate 5 0)%nat
             (boot ia0 [UStart k0] [] [0]) in
  head (trace m) = Some (0%nat, OStartRet k0 0 (Some 1%nat))
  ∧ live m = [].
Proof.
  intros m. split; [by vm_compute|].
  apply (semaphore_is_destroyed_when_create_succeeds cfg_linux ia0 [UStart k0]
           [] [0] (replicate 12 0 ++ replicate 5 1 ++ replicate 5 0)%nat).
  - by repeat constructor.
  - intros p pth Hp.
    destruct p as [|[|p]]; vm_compute in Hp; [by injection Hp as <-..|done].
Defined.

(** X7: every return of [tinygo_task_start] on a thread comes right
    after the steps of one whole call on that thread, in the order of
    the source.  The value returned is what [pthread_create] answered,
    and it is 0 exactly when a thread was made; a call that fails runs
    neither [sem_wait] nor [sem_destroy], a call that succeeds runs
    both, once, in that order. *)
Theorem start_call_has_one_of_two_shapes
    (cfg : config) (m : machine) (p : tid) (newer older : list op)
    (k : start_args) (r : Z) (ch : option tid) :
  reachable cfg m →
  own p (trace m) = newer ++ OStartRet k r ch :: older →
  (r = 0 ↔ is_Some ch)
  ∧ ∃ rest, older = start_steps k r ch ++ rest.
Proof.
  intros Hr Heq.
  destruct (own_thread cfg m p (OStartRet k r ch) Hr) as [pth Hp].
  { rewrite Heq. apply elem_of_app. right. apply elem_of_cons. by left. }
  destruct (calls_reachable _ _ Hr _ _ Hp) as [Hret _].
  rewrite Heq in Hret. by apply returns_ok_split in Hret.
Qed.

Lemma start_call_has_one_of_two_shapes_witness :
  let m := run cfg_linux (replicate 14 0 ++ replicate 12 0 ++ replicate 5 1
                          ++ replicate 5 0)%nat
             (boot ia0 [UStart k_null; UStart k0] [] [EAGAIN]) in
  own 0%nat (trace m)
  = OStartRet k0 0 (Some 1%nat) :: start_steps k0 0 (Some 1%nat)
    ++ OStartRet k_null EAGAIN None :: start_steps k_null EAGAIN None
    ++ init_script cfg_linux 0%nat ia0.
Proof.
  intros m.
  assert (reachable cfg_linux m) as Hr by apply reachable_run, reachable_boot.
  destruct (start_call_has_one_of_two_shapes cfg_linux m 0%nat
              (OStartRet k0 0 (Some 1%nat) :: start_steps k0 0 (Some 1%nat))
              (start_steps k_null EAGAIN None ++ init_script cfg_linux 0%nat ia0)
              k_null EAGAIN None Hr) as [_ [rest Hrest]].
  - by vm_compute.
  - by vm_compute.
Defined.

(** ** Properties of [start_wrapper] *)

(** X8: all that a thread made by [tinygo_task_start] does is
    [start_wrapper] in the order of the source: the three reads of the
    record, which find the parameters of its call, the binding, the
    store of its stack address, the post, the call of the entry function
    with the function and the argument read, then what the task code
    does, then the exit notice with the task of its call, then the
    return. *)
Theorem start_wrapper_runs_in_order
    (cfg : config) (m : machine) (c p : tid) (cth : thread) (k : start_args) :
  reachable cfg m → threads m !! c = Some cth → origin_of cth = Spawned p k →
  ∃ body,
    own c (trace m) = lifecycle cfg c (Spawned p k) (t_pc cth) body
    ∧ forallb task_op body = true
    ∧ ((5 < rank (t_pc cth))%nat →
       ∃ later, own c (trace m) = later ++ wrapper_prologue cfg c k).
Proof.
  intros Hr Hc Ho.
  destruct (lifecycle_reachable _ _ Hr _ _ Hc) as (body & Hown & Hbody).
  rewrite Ho in Hown. exists body. split_and!; try done.
  intros Hrank. rewrite Hown.
  destruct (t_pc cth); simpl in Hrank; try lia; simpl.
  - by exists body.
  - by exists (OEntryRet :: body).
  - by exists (OExited (a_task k) :: OEntryRet :: body).
  - by exists (OThreadRet :: OExited (a_task k) :: OEntryRet :: body).
Qed.

Lemma start_wrapper_runs_in_order_witness :
  let m := run cfg_linux (replicate 12 0 ++ replicate 10 1)%nat
             (boot ia0 [UStart k0] [] []) in
  own 1%nat (trace m)
  = wrapper_epilogue k0 ++ [OCurrent (a_task k0)]
    ++ wrapper_prologue cfg_linux 1%nat k0.
Proof.
  intros m.
  assert (reachable cfg_linux m) as Hr by apply reachable_run, reachable_boot.
  destruct (threads m !! 1%nat) as [cth|] eqn:Hc; [|by vm_compute in Hc].
  destruct (start_wrapper_runs_in_order cfg_linux m 1%nat 0%nat cth k0 Hr Hc)
    as (body & Hown & _).
  - vm_compute in Hc. by injection Hc as <-.
  - by vm_compute.
Defined.

(** X9: a thread made by [tinygo_task_start] calls its entry
    function once, with the function and the argument of its call, and
    [tinygo_task_exited] once, after the entry function has returned and
    with the task of its call; the main thread and foreign threads call
    neither. *)
Theorem entry_and_exit_happen_once
    (cfg : config) (m : machine) (c : tid) (cth : thread) :
  reachable cfg m → threads m !! c = Some cth →
  match origin_of cth with
  | Spawned p k =>
      (∀ fn a, (c, OEntry fn a) ∈ trace m → fn = a_fn k ∧ a = a_args k)
      ∧ (∀ v, (c, OExited v) ∈ trace m →
           v = a_task k ∧ (c, OEntryRet) ∈ trace m)
      ∧ count is_entry (own c (trace m))
        = (if bool_decide (5 < rank (t_pc cth))%nat then 1 else 0)%nat
      ∧ count is_exited (own c (trace m))
        = (if bool_decide (7 < rank (t_pc cth))%nat then 1 else 0)%nat
  | _ =>
      (∀ fn a, (c, OEntry fn a) ∉ trace m) ∧ (∀ v, (c, OExited v) ∉ trace m)
  end.
Proof.
  intros Hr Hc.
  destruct (lifecycle_reachable _ _ Hr _ _ Hc) as (body & Hown & Hbody).
  assert (∀ o, o ∈ body → task_op o = true) as Hb
    by (intros o; by apply elem_of_task_ops).
  assert (count is_entry body = 0%nat) as Hce
    by (apply count_task_ops; [by intros []|done]).
  assert (count is_exited body = 0%nat) as Hcx
    by (apply count_task_ops; [by intros []|done]).
  assert (∀ o, o ∈ own c (trace m) → (c, o) ∈ trace m) as Hin
    by (intros o; apply elem_of_own).
  destruct (origin_of cth) as [ia| |p k].
  - split; intros; rewrite <- elem_of_own, Hown;
      unfold lifecycle, init_script; destruct (t_pc cth); simpl;
      repeat first [rewrite elem_of_cons|rewrite elem_of_app];
        rewrite ?elem_of_nil;
      intros H; destruct_or?; try done; by apply Hb in H.
  - split; intros; rewrite <- elem_of_own, Hown; intros H; by apply Hb in H.
  - split_and!.
    + intros fn a. rewrite <- elem_of_own, Hown.
      unfold lifecycle, wrapper_prologue, wrapper_epilogue.
      destruct (t_pc cth); simpl;
        repeat first [rewrite elem_of_cons|rewrite elem_of_app];
        rewrite ?elem_of_nil;
        intros H; destruct_or?; simplify_eq; try done; by apply Hb in H.
    + intros v Hv. split.
      * revert Hv. rewrite <- elem_of_own, Hown.
        unfold lifecycle, wrapper_prologue, wrapper_epilogue.
        destruct (t_pc cth); simpl;
          repeat first [rewrite elem_of_cons|rewrite elem_of_app];
        rewrite ?elem_of_nil;
          intros H; destruct_or?; simplify_eq; try done; by apply Hb in H.
      * apply Hin. revert Hv. rewrite <- elem_of_own, Hown.
        unfold lifecycle, wrapper_prologue, wrapper_epilogue.
        destruct (t_pc cth); simpl;
          repeat first [rewrite elem_of_cons|rewrite elem_of_app];
        rewrite ?elem_of_nil;
          intros H; destruct_or?; simplify_eq; try done;
          try (by apply Hb in H); auto.
    + rewrite Hown. unfold lifecycle, wrapper_prologue, wrapper_epilogue.
      destruct (t_pc cth); simpl; try done;
        change (?a :: ?b :: ?d :: ?l ++ ?r) with ([a; b; d] ++ l ++ r);
        change (?a :: ?b :: ?l ++ ?r) with ([a; b] ++ l ++ r);
        change (?a :: ?l ++ ?r) with ([a] ++ l ++ r);
        rewrite ?count_app, ?Hce; done.
    + rewrite Hown. unfold lifecycle, wrapper_prologue, wrapper_epilogue.
      destruct (t_pc cth); simpl; try done;
        change (?a :: ?b :: ?d :: ?l ++ ?r) with ([a; b; d] ++ l ++ r);
        change (?a :: ?b :: ?l ++ ?r) with ([a; b] ++ l ++ r);
        change (?a :: ?l ++ ?r) with ([a] ++ l ++ r);
        rewrite ?count_app, ?Hcx; done.
Qed.

Lemma entry_and_exit_happen_once_witness :
  let m := run cfg_linux (replicate 12 0 ++ replicate 10 1)%nat
             (boot ia0 [UStart k0] [] []) in
  (1%nat, OEntry 100 7) ∈ trace m ∧ (1%nat, OExited 55) ∈ trace m
  ∧ count is_entry (own 1%nat (trace m)) = 1%nat
  ∧ count is_exited (own 1%nat (trace m)) = 1%nat.
Proof.
  intros m.
  assert (reachable cfg_linux m) as Hr by apply reachable_run, reachable_boot.
  destruct (threads m !! 1%nat) as [cth|] eqn:Hc; [|by vm_compute in Hc].
  pose proof (entry_and_exit_happen_once cfg_linux m 1%nat cth Hr Hc) as H.
  assert (origin_of cth = Spawned 0%nat k0 ∧ t_pc cth = Done) as [Ho Hpc]
    by (vm_compute in Hc; by injection Hc as <-).
  rewrite Ho, Hpc in H. destruct H as (_ & _ & H1 & H2).
  split; [|split; [|exact (conj H1 H2)]]; vm_compute;
    repeat first [ apply elem_of_cons; left; reflexivity
                 | apply elem_of_cons; right ].
Defined.

(** ** Properties of the rendezvous *)

(** X11: as long as a thread made by [tinygo_task_start] has not
    posted, the call that made it has not returned: its record is where
    it was, holds the parameters of that call, and its semaphore stands
    at 0.  A caller has at most one such thread at a time. *)
Theorem record_outlives_its_reader
    (cfg : config) (m : machine) (c p : tid) (cth : thread) (k : start_args) :
  reachable cfg m → threads m !! c = Some cth → origin_of cth = Spawned p k →
  pre_post (t_pc cth) = true →
  (∃ pth sc, threads m !! p = Some pth ∧ call pth = Some sc
     ∧ awaiting sc = true ∧ s_child sc = Some c ∧ s_k sc = k
     ∧ record_of k (state pth) ∧ startlock (state pth) = 0%nat)
  ∧ (∀ c' cth' k', threads m !! c' = Some cth' →
       origin_of cth' = Spawned p k' → pre_post (t_pc cth') = true → c' = c).
Proof.
  intros Hr Hc Ho Hpre. pose proof (inv_reachable _ _ Hr) as Hinv.
  destruct (inv_local _ _ Hinv _ _ Hc) as [_ Hl]. rewrite Ho in Hl.
  destruct Hl as (_ & Hlt & _).
  destruct (lookup_lt_is_Some_2 (threads m) p) as [pth Hp];
    [apply lookup_lt_Some in Hc; lia|].
  destruct (inv_pair _ _ Hinv _ _ _ _ Hc Hp) as [Hchild Hpar].
  destruct (Hchild k Ho Hpre) as (sc & Hsc & Haw & Hch & Hres & Hk & Hrec).
  split.
  - exists pth, sc. split_and!; try done.
    destruct (Hpar sc Hsc Hch) as (_ & Hlock & _).
    rewrite Hpre in Hlock. by apply Hlock.
  - intros c' cth' k' Hc' Ho' Hpre'.
    destruct (inv_pair _ _ Hinv _ _ _ _ Hc' Hp) as [Hchild' _].
    destruct (Hchild' k' Ho' Hpre') as (sc' & Hsc' & _ & Hch' & _).
    congruence.
Qed.

Lemma record_outlives_its_reader_witness :
  let m := run cfg_linux (replicate 12 0 ++ replicate 3 1)%nat
             (boot ia0 [UStart k0] [] []) in
  (t_pc <$> threads m !! 1%nat) = Some WStackTop
  ∧ (state <$> threads m !! 0%nat) = Some (StatePass 100 7 55 2000 0).
Proof.
  intros m.
  assert (reachable cfg_linux m) as Hr by apply reachable_run, reachable_boot.
  edestruct (record_outlives_its_reader cfg_linux m 1%nat 0%nat)
    as [(pth & sc & Hp & Hsc & _ & _ & _ & Hrec & Hlock) _];
    [exact Hr|vm_compute; reflexivity..|].
  split; [vm_compute; reflexivity|].
  rewrite Hp. clear Hp Hsc. simpl. f_equal.
  destruct Hrec as (H1 & H2 & H3 & H4).
  destruct (state pth) as [a b c d e]. simpl in H1, H2, H3, H4, Hlock.
  by rewrite H1, H2, H3, H4, Hlock.
Defined.

(** X12: a caller in [sem_wait] cannot move as long as the thread it
    made has not posted, and that thread can always move; once the
    thread has posted the caller can move. *)
Theorem sem_wait_blocks_until_post
    (cfg : config) (m : machine) (p : tid) (pth : thread) (sc : scall) :
  reachable cfg m → trapped m = false →
  threads m !! p = Some pth → call pth = Some sc → s_pc sc = SWait →
  ∃ c cth, s_child sc = Some c ∧ threads m !! c = Some cth
    ∧ origin_of cth = Spawned p (s_k sc)
    ∧ (pre_post (t_pc cth) = true →
       step cfg p m = None ∧ is_Some (step cfg c m))
    ∧ (pre_post (t_pc cth) = false → is_Some (step cfg p m)).
Proof.
  intros Hr Htr Hp Hsc Hw. pose proof (inv_reachable _ _ Hr) as Hinv.
  destruct (sem_wait_cases _ _ _ _ _ Hinv Hp Hsc Hw)
    as (c & cth & Hch & Hc & Ho & Hws & Hlt & Hlock).
  destruct (inv_local _ _ Hinv _ _ Hp) as [Hrun _].
  specialize (Hrun ltac:(eauto)).
  exists c, cth. split_and!; try done.
  - intros Hpre. rewrite Hpre in Hlock. split.
    + unfold step. rewrite Htr, Hp. simpl. unfold step_thread.
      rewrite Hrun, Hsc. unfold step_start. by rewrite Hw, Hlock.
    + destruct (wrapper_moves _ _ _ _ _ _ Hinv Htr Hc Ho Hpre) as (m' & -> & _).
      by eexists.
  - intros Hpre. rewrite Hpre in Hlock.
    unfold step. rewrite Htr, Hp. simpl. unfold step_thread.
    rewrite Hrun, Hsc. unfold step_start. rewrite Hw, Hlock. by eexists.
Qed.

Lemma sem_wait_blocks_until_post_witness :
  let m := run cfg_linux (replicate 14 0 ++ replicate 3 1)%nat
             (boot ia0 [UStart k0] [] []) in
  step cfg_linux 0%nat m = None
  ∧ is_Some (step cfg_linux 0%nat (run cfg_linux [1; 1]%nat m)).
Proof.
  intros m.
  assert (reachable cfg_linux m) as Hr by apply reachable_run, reachable_boot.
  assert (reachable cfg_linux (run cfg_linux [1; 1]%nat m)) as Hr'
    by apply reachable_run, Hr.
  split.
  - edestruct (sem_wait_blocks_until_post cfg_linux m 0%nat)
      as (c & cth & Hch & Hc & _ & H & _);
      [exact Hr|vm_compute; reflexivity..|].
    apply H. vm_compute in Hch. injection Hch as <-.
    vm_compute in Hc. injection Hc as <-. reflexivity.
  - edestruct (sem_wait_blocks_until_post cfg_linux
                 (run cfg_linux [1; 1]%nat m) 0%nat)
      as (c & cth & Hch & Hc & _ & _ & H);
      [exact Hr'|vm_compute; reflexivity..|].
    apply H. vm_compute in Hch. injection Hch as <-.
    vm_compute in Hc. injection Hc as <-. reflexivity.
Defined.

(** X13: where the size check passes, every call of
    [tinygo_task_start] that is under way can be brought to its return
    by at most 17 steps, each of them a step of the caller or of a
    thread the caller made: no other thread has to move. *)
Theorem start_call_can_finish
    (cfg : config) (m : machine) (p : tid) (pth : thread) (sc : scall) :
  reachable cfg m → trapped m = false → sizes_agree cfg →
  threads m !! p = Some pth → call pth = Some sc →
  ∃ sched, (length sched ≤ steps_left m sc ≤ 17)%nat
    ∧ (∀ t, t ∈ sched →
         t = p ∨ ∃ cth k, threads (run cfg sched m) !! t = Some cth
                          ∧ origin_of cth = Spawned p k)
    ∧ ∃ pth' r ch, threads (run cfg sched m) !! p = Some pth'
        ∧ call pth' = None
        ∧ head (trace (run cfg sched m)) = Some (p, OStartRet (s_k sc) r ch)
        ∧ trapped (run cfg sched m) = false.
Proof.
  intros Hr Htr Hsz Hp Hsc.
  destruct (start_finishes cfg (steps_left m sc) m p pth sc)
    as (sched & Hlen & Hwho & Hfin); try done.
  { by apply inv_reachable. }
  exists sched. split; [|done]. split; [done|apply steps_left_bound].
Qed.

Lemma start_call_can_finish_witness :
  let m := run cfg_linux (replicate 9 0 ++ [1; 1])%nat
             (boot ia0 [UStart k0] [[UCurrent; UCurrent]] []) in
  ∃ sched, (length sched ≤ 17)%nat
    ∧ ∃ r ch, head (trace (run cfg_linux sched m)) = Some (0%nat, OStartRet k0 r ch).
Proof.
  intros m.
  assert (reachable cfg_linux m) as Hr by apply reachable_run, reachable_boot.
  edestruct (start_call_can_finish cfg_linux m 0%nat)
    as (sched & [Hlen Hb] & _ & pth' & r & ch & _ & _ & Hhd & _);
    [exact Hr|vm_compute; reflexivity..|].
  exists sched. split; [by etransitivity|]. by exists r, ch.
Defined.

(** ** What the launcher never does *)

(** X14: every word of the embedding runtime that has been written
    in a run lies where a caller pointed: at [thread] or [numCPU] of
    [tinygo_task_init], or at [thread] or [stackTop] of some call of
    [tinygo_task_start]. *)
Theorem stores_go_through_the_given_pointers
    (cfg : config) (m : machine) (a v : Z) :
  reachable cfg m → mem m !! a = Some v →
  (∃ th ia, threads m !! 0%nat = Some th ∧ origin_of th = Main ia
            ∧ (a = i_thread ia ∨ a = i_numCPU ia))
  ∨ (∃ p k, (p, OStartCall k) ∈ trace m
            ∧ (a = a_thread k ∨ a = a_stackTop k)).
Proof. intros Hr Hm. by eapply frame_reachable. Qed.

Lemma stores_go_through_the_given_pointers_witness :
  let m := run cfg_linux (replicate 12 0 ++ replicate 5 1 ++ replicate 5 0)%nat
             (boot ia0 [UStart k0] [] []) in
  mem m !! a_stackTop k0 = Some 8192
  ∧ dom (mem m) = {[ i_thread ia0; i_numCPU ia0; a_thread k0; a_stackTop k0 ]}.
Proof.
  intros m.
  assert (reachable cfg_linux m) as Hr by apply reachable_run, reachable_boot.
  assert (mem m !! a_stackTop k0 = Some 8192) as Hm by (vm_compute; reflexivity).
  destruct (stores_go_through_the_given_pointers cfg_linux m _ _ Hr Hm)
    as [_|_]; (split; [exact Hm|vm_compute; reflexivity]).
Defined.

(** X16: the process traps only where the size check fails: where
    the sizes agree no run ever traps; where they differ no run ever
    gets a thread, a semaphore or an attribute object made by
    [tinygo_task_start], and every call stands at its first
    statement. *)
Theorem trap_only_on_size_mismatch (cfg : config) (m : machine) :
  reachable cfg m →
  (sizes_agree cfg → trapped m = false ∧ ∀ t, (t, OTrap) ∉ trace m)
  ∧ (¬ sizes_agree cfg → unlaunched m)
  ∧ (trapped m = true ↔ ∃ t, (t, OTrap) ∈ trace m).
Proof.
  intros Hr. destruct (trap_reachable _ _ Hr) as (Hiff & Hbad & Hun).
  split_and!; try done.
  intros Hsz.
  assert (trapped m = false) as Hnt.
  { destruct (trapped m); [|done]. by destruct (Hbad eq_refl). }
  split; [done|]. intros t Hin.
  destruct Hiff as [_ Hiff]. rewrite Hiff in Hnt; [done|eauto].
Qed.

Lemma trap_only_on_size_mismatch_witness :
  let m := run cfg_wide (replicate 9 0 ++ [1; 0; 1])%nat
             (boot ia0 [UStart k0] [[UStart k1]] []) in
  ¬ sizes_agree cfg_wide
  ∧ trapped m = true ∧ length (threads m) = 2%nat ∧ live m = [].
Proof.
  intros m.
  assert (reachable cfg_wide m) as Hr by apply reachable_run, reachable_boot.
  assert (¬ sizes_agree cfg_wide) as Hbad by (by vm_compute).
  destruct (trap_only_on_size_mismatch cfg_wide m Hr) as (_ & H & _).
  destruct (H Hbad) as [Hlive _].
  split; [exact Hbad|]. split; [vm_compute; reflexivity|].
  split; [vm_compute; reflexivity|exact Hlive].
Defined.

(** X17: a step of one thread leaves every other thread as it is, with
    one exception: the post of a thread made by [tinygo_task_start]
    raises by one the semaphore in the record of the thread that made
    it, and changes nothing else of that thread. *)
Theorem a_step_touches_no_other_thread
    (cfg : config) (m m' : machine) (t x : tid) (xth : thread) :
  reachable cfg m → step cfg t m = Some m' → x ≠ t →
  threads m !! x = Some xth →
  threads m' !! x = Some xth
  ∨ (∃ th k, threads m !! t = Some th ∧ origin_of th = Spawned x k
       ∧ t_pc th = WPost
       ∧ threads m' !! x
         = Some (set_startlock (S (startlock (state xth))) xth)).
Proof.
  intros Hr Hstep Hne Hx. pose proof (inv_reachable _ _ Hr) as Hinv.
  pose proof (lookup_lt_Some _ _ _ Hx) as Hlt.
  step_cases Hstep th Ht; simpl;
    rewrite ?lookup_app_l by (rewrite ?length_alter; lia);
    rewrite ?list_lookup_alter_ne by done; auto.
  destruct (decide (w_state th = x)) as [<-|Hw].
  - right. assert (t_pc th = WPost) as Hpc by done.
    destruct (inv_local _ _ Hinv _ _ Ht) as [_ Hl]. rewrite Hpc in Hl.
    destruct (origin_of th) as [ia| |p k] eqn:Ho; simpl in Hl;
      [by destruct Hl|by destruct Hl|].
    destruct Hl as (<- & _). exists th, k. split_and!; try done.
    rewrite list_lookup_alter_eq, list_lookup_alter_ne, Hx by done. done.
  - left. by rewrite !list_lookup_alter_ne by done.
Qed.

Lemma a_step_touches_no_other_thread_witness :
  let m := run cfg_linux (replicate 14 0 ++ replicate 4 1)%nat
             (boot ia0 [UStart k0] [] []) in
  (startlock ∘ state <$> threads m !! 0%nat) = Some 0%nat
  ∧ (startlock ∘ state <$> threads (run cfg_linux [1%nat] m) !! 0%nat)
    = Some 1%nat.
Proof.
  intros m.
  assert (reachable cfg_linux m) as Hr by apply reachable_run, reachable_boot.
  split; [vm_compute; reflexivity|].
  edestruct (a_step_touches_no_other_thread cfg_linux m
               (run cfg_linux [1%nat] m) 1%nat 0%nat)
    as [H|(th & k & _ & _ & _ & H)];
    [exact Hr|vm_compute; reflexivity|done|vm_compute; reflexivity|..].
  - vm_compute in H. discriminate H.
  - rewrite H. vm_compute. reflexivity.
Defined.
